(** * Hexagonal tilings: a shallow embedding of [bokeh/util/hex.py]

    The module maps Cartesian points to the axial coordinates of the
    hexagonal tile that contains them ([cartesian_to_axial], [_round_hex])
    and counts the points per tile ([hexbin]).

    NumPy's [float64] is modelled by the IEEE 754 binary64 instance of the
    Standard Library's [SpecFloat]; one-dimensional arrays are lists, NumPy
    broadcasting and Python exceptions are made explicit in a small error
    monad. *)

From Stdlib Require Import ZArith List Bool String Lia SpecFloat.
Import ListNotations.
Open Scope Z_scope.

(** ** IEEE 754 binary64, the element type of the arrays *)

Module F64.

Definition prec : Z := 53.
Definition emax : Z := 1024.

Definition float := spec_float.

Definition valid (f : float) : bool := valid_binary prec emax f.

Definition add : float -> float -> float := SFadd prec emax.
Definition sub : float -> float -> float := SFsub prec emax.
Definition mul : float -> float -> float := SFmul prec emax.
Definition div : float -> float -> float := SFdiv prec emax.
Definition sqrt : float -> float := SFsqrt prec emax.
Definition neg : float -> float := SFopp.
Definition abs : float -> float := SFabs.

(** [a > b]; false as soon as one side is NaN. *)
Definition gtb (a b : float) : bool := SFltb b a.
Definition eqb (a b : float) : bool := SFeqb a b.

(** The float nearest to an integer (exact up to [2^53]). *)
Definition of_Z (n : Z) : float := binary_normalize prec emax n 0 false.

Definition zero : float := S754_zero false.
Definition one : float := of_Z 1.

(** Nearest integer to [m / 2^k], ties to the even one. *)
Definition round_half_even (m k : Z) : Z :=
  let d := 2 ^ k in
  let q := m / d in
  match Z.compare (2 * (m mod d)) d with
  | Lt => q
  | Gt => q + 1
  | Eq => if Z.even q then q else q + 1
  end.

(** [np.round] with no decimals is C's [rint]: round to the nearest
    integer, ties to even, the sign of a zero result kept; NaN,
    infinities and floats that are already integers are returned as they
    are. *)
Definition rint (f : float) : float :=
  match f with
  | S754_finite s m e =>
      if 0 <=? e then f
      else match round_half_even (Zpos m) (- e) with
           | Z0 => S754_zero s
           | n => binary_normalize prec emax (cond_Zopp s n) 0 s
           end
  | _ => f
  end.

Definition int64_min : Z := - 2 ^ 63.
Definition int64_max : Z := 2 ^ 63 - 1.

(** The integer a finite float truncates to (towards zero). *)
Definition trunc (s : bool) (m : positive) (e : Z) : Z :=
  cond_Zopp s (if 0 <=? e then Zpos m * 2 ^ e else Zpos m / 2 ^ (- e)).

(** [.astype(int)] on a 64-bit platform: the C conversion from double to
    [int64].  NaN, infinities and values outside the range give the
    "integer indefinite" value [-2^63] of x86-64. *)
Definition astype_int (f : float) : Z :=
  match f with
  | S754_zero _ => 0
  | S754_finite s m e =>
      let v := trunc s m e in
      if (int64_min <=? v) && (v <=? int64_max) then v else int64_min
  | _ => int64_min
  end.

End F64.

Import F64.

(** ** Exceptions and results *)

Inductive exn : Type :=
  | ValueError_broadcast (n m : nat)   (* operands could not be broadcast together *)
  | AttributeError_NoneType (attr : string)   (* 'NoneType' object has no attribute ... *)
  | MissingDependency (mod_name : string).    (* what a dependency check would raise *)

Inductive result (A : Type) : Type :=
  | Ok (a : A)
  | Raise (e : exn).
Arguments Ok {A} a.
Arguments Raise {A} e.

Definition bind {A B : Type} (r : result A) (k : A -> result B) : result B :=
  match r with
  | Ok a => k a
  | Raise e => Raise e
  end.

Notation "x <- r ;; k" := (bind r (fun x => k))
  (at level 61, r at next level, right associativity).

(** ** One-dimensional NumPy arrays *)

Module Np.

Definition array (A : Type) := list A.

Fixpoint zip_with {A B C : Type} (f : A -> B -> C) (xs : list A) (ys : list B) : list C :=
  match xs, ys with
  | a :: xs', b :: ys' => f a b :: zip_with f xs' ys'
  | _, _ => []
  end.

(** A binary ufunc on two arrays: equal shapes are combined element by
    element, a shape of one element is stretched along the other, any
    other pair of shapes raises. *)
Definition broadcast2 {A B C : Type} (f : A -> B -> C)
    (xs : array A) (ys : array B) : result (array C) :=
  if Nat.eqb (List.length xs) (List.length ys) then Ok (zip_with f xs ys)
  else match xs, ys with
       | [a], _ => Ok (map (f a) ys)
       | _, [b] => Ok (map (fun a => f a b) xs)
       | _, _ => Raise (ValueError_broadcast (List.length xs) (List.length ys))
       end.

Definition add := broadcast2 F64.add.
Definition sub := broadcast2 F64.sub.
Definition greater := broadcast2 F64.gtb.
Definition logical_and := broadcast2 andb.

Definition negative : array float -> array float := map F64.neg.
Definition abs : array float -> array float := map F64.abs.
Definition round : array float -> array float := map F64.rint.
Definition invert : array bool -> array bool := map negb.
Definition astype_int : array float -> array Z := map F64.astype_int.

(** Array and scalar. *)
Definition div_scalar (xs : array float) (s : float) : array float :=
  map (fun v => F64.div v s) xs.
Definition mul_scalar (xs : array float) (s : float) : array float :=
  map (fun v => F64.mul v s) xs.
Definition scalar_mul (s : float) (xs : array float) : array float :=
  map (fun v => F64.mul s v) xs.

(** [np.where(c, a, b)]: the three operands are broadcast together. *)
Definition where_ {A : Type} (c : array bool) (a b : array A) : result (array A) :=
  ca <- broadcast2 pair c a ;;
  broadcast2 (fun (p : bool * A) (v : A) => if fst p then snd p else v) ca b.

End Np.

(** ** Private API *)

(** [coords[i]] of a four-element list. *)
Definition item (coords : list float) (i : nat) : float := nth i coords S754_nan.

Definition _HEX_FLAT : list float :=
  [ div (of_Z 2) (of_Z 3); zero; div (neg (of_Z 1)) (of_Z 3); div (sqrt (of_Z 3)) (of_Z 3) ].

Definition _HEX_POINTY : list float :=
  [ div (sqrt (of_Z 3)) (of_Z 3); div (neg (of_Z 1)) (of_Z 3); zero; div (of_Z 2) (of_Z 3) ].

Definition _round_hex (q r : Np.array float) : result (Np.array Z * Np.array Z) :=
  let x := q in
  let z := r in
  y <- Np.sub (Np.negative x) z ;;
  let rx := Np.round x in
  let ry := Np.round y in
  let rz := Np.round z in
  ex <- Np.sub rx x ;;
  let dx := Np.abs ex in
  ey <- Np.sub ry y ;;
  let dy := Np.abs ey in
  ez <- Np.sub rz z ;;
  let dz := Np.abs ez in
  gxy <- Np.greater dx dy ;;
  gxz <- Np.greater dx dz ;;
  cond <- Np.logical_and gxy gxz ;;
  syz <- Np.add ry rz ;;
  q <- Np.where_ cond (Np.negative syz) rx ;;
  gyz <- Np.greater dy dz ;;
  sel <- Np.logical_and (Np.invert cond) (Np.invert gyz) ;;
  sxy <- Np.add rx ry ;;
  r <- Np.where_ sel (Np.negative sxy) rz ;;
  Ok (Np.astype_int q, Np.astype_int r).

(** ** Dev API *)

Definition cartesian_to_axial (x y : Np.array float) (size : float)
    (orientation : string) (aspect_scale : float)
    : result (Np.array Z * Np.array Z) :=
  let coords := if String.eqb orientation "flattop" then _HEX_FLAT else _HEX_POINTY in
  let x := Np.mul_scalar (Np.div_scalar x size)
             (if String.eqb orientation "pointytop" then aspect_scale else one) in
  let y := Np.div_scalar (Np.div_scalar (Np.negative y) size)
             (if String.eqb orientation "flattop" then aspect_scale else one) in
  q <- Np.add (Np.scalar_mul (item coords 0) x) (Np.scalar_mul (item coords 1) y) ;;
  r <- Np.add (Np.scalar_mul (item coords 2) x) (Np.scalar_mul (item coords 3) y) ;;
  _round_hex q r.

(** ** General API *)

(** [import_optional] is defined in [bokeh/util/dependencies.py], outside
    the sources at hand; what [hexbin] gets from it is a parameter of the
    model.  The dependency being optional, the call raises nothing: it gives
    the module when it is among the [installed] ones and Python's [None]
    otherwise. *)
Definition import_optional (installed : list string) (mod_name : string) : option string :=
  if existsb (String.eqb mod_name) installed then Some mod_name else None.

(** The pandas side: a frame with the columns [q] and [r] is a list of rows;
    [groupby(['q', 'r']).size().reset_index(name='counts')] gives one row per
    distinct key, in the order of the keys, with the number of rows of the
    group. *)
Module Pd.

Definition key : Type := Z * Z.
Definition row : Type := key * Z.     (* ((q, r), counts) *)

Definition DataFrame (r q : Np.array Z) : list key := combine q r.

Definition key_compare (a b : key) : comparison :=
  match Z.compare (fst a) (fst b) with
  | Eq => Z.compare (snd a) (snd b)
  | c => c
  end.

Fixpoint tally (k : key) (groups : list row) : list row :=
  match groups with
  | [] => [(k, 1)]
  | (k', c) :: rest =>
      match key_compare k k' with
      | Lt => (k, 1) :: groups
      | Eq => (k', c + 1) :: rest
      | Gt => (k', c) :: tally k rest
      end
  end.

Definition groupby_size (df : list key) : list row :=
  fold_left (fun groups k => tally k groups) df [].

End Pd.

Definition hexbin (installed : list string) (x y : Np.array float) (size : float)
    (orientation : string) (aspect_scale : float) : result (list Pd.row) :=
  let pd := import_optional installed "pandas" in
  qr <- cartesian_to_axial x y size orientation aspect_scale ;;
  match pd with
  | None => Raise (AttributeError_NoneType "DataFrame")
  | Some _ =>
      let df := Pd.DataFrame (snd qr) (fst qr) in
      Ok (Pd.groupby_size df)
  end.

(** The default arguments of [hexbin]. *)
Definition default_orientation : string := "pointytop".
Definition default_aspect_scale : float := one.

(** ** The rounding of one point *)

(** What [_round_hex] does at one index of its arrays. *)
Section Point.
Variables q r : float.

Definition cube_y : float := F64.sub (F64.neg q) r.
Definition rx : float := rint q.
Definition ry : float := rint cube_y.
Definition rz : float := rint r.
Definition dx : float := F64.abs (F64.sub rx q).
Definition dy : float := F64.abs (F64.sub ry cube_y).
Definition dz : float := F64.abs (F64.sub rz r).
End Point.

(** The two outputs of [_round_hex] for the point [(q, r)]. *)
Definition x_is_largest (q r : float) : bool :=
  gtb (dx q) (dy q r) && gtb (dx q) (dz r).

Definition round_hex_point (q r : float) : Z * Z :=
  (astype_int (if x_is_largest q r then neg (F64.add (ry q r) (rz r)) else rx q),
   astype_int (if negb (x_is_largest q r) && negb (gtb (dy q r) (dz r))
               then neg (F64.add (rx q) (ry q r)) else rz r)).

(** ** The mapping of one point *)

(** What [cartesian_to_axial] computes for the point [(x, y)] before it
    rounds, and the tile it returns for it. *)
Section Mapper.
Variables (size : float) (orientation : string) (aspect_scale : float).

Definition basis : list float :=
  if String.eqb orientation "flattop" then _HEX_FLAT else _HEX_POINTY.

Definition norm_x (x : float) : float :=
  F64.mul (F64.div x size)
    (if String.eqb orientation "pointytop" then aspect_scale else one).

Definition norm_y (y : float) : float :=
  F64.div (F64.div (F64.neg y) size)
    (if String.eqb orientation "flattop" then aspect_scale else one).

Definition axial_q (x y : float) : float :=
  F64.add (F64.mul (item basis 0) (norm_x x)) (F64.mul (item basis 1) (norm_y y)).

Definition axial_r (x y : float) : float :=
  F64.add (F64.mul (item basis 2) (norm_x x)) (F64.mul (item basis 3) (norm_y y)).

Definition tile_of (x y : float) : Z * Z :=
  round_hex_point (axial_q x y) (axial_r x y).
End Mapper.

(** ** Integers among the floats *)

(** The record [shr] leaves after [k] right shifts of [m]: the quotient, the
    last bit dropped and whether any bit before it was set. *)
Definition shifted (m : Z) (k : Z) (r s : bool) : shr_record :=
  Build_shr_record (m / 2 ^ k) (Z.testbit m (k - 1))
    (negb (m mod 2 ^ (k - 1) =? 0) || (r || s)).

(** [f] is the float of the integer [a], a zero of either sign for [0]. *)
Definition Int (f : float) (a : Z) : Prop :=
  Z.abs a < 2 ^ 53 /\ (f = of_Z a \/ (a = 0 /\ f = S754_zero true)).

(** The integer a float stands for, when it stands for one. *)
Definition int_value (f : float) : option Z :=
  match f with
  | S754_zero _ => Some 0
  | S754_finite s m e =>
      if 0 <=? e then Some (cond_Zopp s (Zpos m * 2 ^ e))
      else if Zpos m mod 2 ^ (- e) =? 0 then Some (cond_Zopp s (Zpos m / 2 ^ (- e)))
      else None
  | _ => None
  end.

(** Zero, or a valid finite float whose exponent is at most [B]. *)
Definition small (B : Z) (f : float) : Prop :=
  match f with
  | S754_zero _ => True
  | S754_finite s m e => valid f = true /\ e <= B
  | _ => False
  end.

(** Below [2^50] in magnitude. *)
Definition below_2p50 (f : float) : bool := gtb (of_Z (2 ^ 50)) (F64.abs f).

(** [q] is a valid float that stands for the integer [a], below [2^52] in
    magnitude. *)
Definition integer_valued (q : float) (a : Z) : Prop :=
  valid q = true /\ int_value q = Some a /\ Z.abs a < 2 ^ 52.

(** [q] is a valid float below [2^50] in magnitude (and so finite). *)
Definition bounded_coordinate (q : float) : Prop :=
  valid q = true /\ below_2p50 q = true.

(** The sum-zero invariant at one point: the three rounded cube coordinates
    are integers, and the outputs [(Q, R)] with [S = -Q-R] agree with them on
    the two axes that were not recomputed. *)
Definition agrees_on_kept_axes (q r : float) (Q R : Z) : Prop :=
  exists ix iy iz : Z,
    int_value (rx q) = Some ix /\ int_value (ry q r) = Some iy
    /\ int_value (rz r) = Some iz
    /\ let S := - Q - R in
       Q + R + S = 0
       /\ if x_is_largest q r then S = iy /\ R = iz
          else if gtb (dy q r) (dz r) then Q = ix /\ R = iz
          else Q = ix /\ S = iy.

(** * Properties *)

(** ** Broadcasting *)

Section Broadcast.
Context {A B C : Type}.
Variable f : A -> B -> C.

Lemma zip_with_length (xs : list A) (ys : list B) :
  List.length xs = List.length ys ->
  List.length (Np.zip_with f xs ys) = List.length xs.
Proof.
  revert ys; induction xs as [|a xs IH]; intros [|b ys] H; simpl in *; try congruence.
  f_equal; apply IH; congruence.
Qed.

Lemma zip_with_map {P : Type} (g : P -> A) (h : P -> B) (ps : list P) :
  Np.zip_with f (map g ps) (map h ps) = map (fun p => f (g p) (h p)) ps.
Proof. induction ps as [|p ps IH]; simpl; congruence. Qed.

Lemma broadcast2_same (xs : list A) (ys : list B) :
  List.length xs = List.length ys ->
  Np.broadcast2 f xs ys = Ok (Np.zip_with f xs ys).
Proof. intros H; unfold Np.broadcast2; rewrite H, Nat.eqb_refl; reflexivity. Qed.

Lemma broadcast2_map {P : Type} (g : P -> A) (h : P -> B) (ps : list P) :
  Np.broadcast2 f (map g ps) (map h ps) = Ok (map (fun p => f (g p) (h p)) ps).
Proof.
  rewrite broadcast2_same by (now rewrite !length_map).
  now rewrite zip_with_map.
Qed.

Lemma broadcast2_one_l (a : A) (ys : list B) :
  Np.broadcast2 f [a] ys = Ok (map (f a) ys).
Proof.
  unfold Np.broadcast2; destruct ys as [|b [|b' ys]]; reflexivity.
Qed.

Lemma broadcast2_one_r (xs : list A) (b : B) :
  Np.broadcast2 f xs [b] = Ok (map (fun a => f a b) xs).
Proof.
  unfold Np.broadcast2; destruct xs as [|a [|a' xs]]; reflexivity.
Qed.

Lemma broadcast2_mismatch (xs : list A) (ys : list B) :
  List.length xs <> List.length ys ->
  List.length xs <> 1%nat -> List.length ys <> 1%nat ->
  Np.broadcast2 f xs ys = Raise (ValueError_broadcast (List.length xs) (List.length ys)).
Proof.
  intros Hne Hx Hy; unfold Np.broadcast2.
  destruct (Nat.eqb_spec (List.length xs) (List.length ys)) as [E|_]; [contradiction|].
  destruct xs as [|a [|a' xs]], ys as [|b [|b' ys]]; simpl in *; congruence.
Qed.
End Broadcast.

Lemma combine_map_fst {A B : Type} (xs : list A) (ys : list B) :
  List.length xs = List.length ys -> map fst (combine xs ys) = xs.
Proof.
  revert ys; induction xs as [|a xs IH]; intros [|b ys] H; simpl in *; try congruence.
  f_equal; apply IH; congruence.
Qed.

Lemma combine_map_snd {A B : Type} (xs : list A) (ys : list B) :
  List.length xs = List.length ys -> map snd (combine xs ys) = ys.
Proof.
  revert ys; induction xs as [|a xs IH]; intros [|b ys] H; simpl in *; try congruence.
  f_equal; apply IH; congruence.
Qed.

(** ** [_round_hex] works point by point *)

Ltac np_unfold :=
  unfold _round_hex, Np.sub, Np.add, Np.greater, Np.logical_and, Np.where_,
    Np.negative, Np.abs, Np.round, Np.invert, Np.astype_int.

Ltac np_step :=
  repeat (rewrite ?map_map, ?broadcast2_map; cbn [bind map]).

Lemma _round_hex_map {P : Type} (g h : P -> float) (ps : list P) :
  _round_hex (map g ps) (map h ps) =
  Ok (map (fun p => fst (round_hex_point (g p) (h p))) ps,
      map (fun p => snd (round_hex_point (g p) (h p))) ps).
Proof.
  np_unfold. np_step.
  reflexivity.
Qed.

Ltac np_stretch :=
  repeat (rewrite ?map_map, ?broadcast2_map, ?broadcast2_one_l, ?broadcast2_one_r;
          cbn [bind map]).

Lemma _round_hex_stretch_q {P : Type} (a : float) (h : P -> float) (ps : list P) :
  _round_hex [a] (map h ps) =
  Ok (map (fun p => fst (round_hex_point a (h p))) ps,
      map (fun p => snd (round_hex_point a (h p))) ps).
Proof.
  np_unfold. np_stretch.
  reflexivity.
Qed.

Lemma _round_hex_stretch_r {P : Type} (g : P -> float) (ps : list P) (b : float) :
  _round_hex (map g ps) [b] =
  Ok (map (fun p => fst (round_hex_point (g p) b)) ps,
      map (fun p => snd (round_hex_point (g p) b)) ps).
Proof.
  np_unfold. np_stretch.
  reflexivity.
Qed.

Lemma _round_hex_mismatch (qs rs : list float) :
  List.length qs <> List.length rs ->
  List.length qs <> 1%nat -> List.length rs <> 1%nat ->
  _round_hex qs rs = Raise (ValueError_broadcast (List.length qs) (List.length rs)).
Proof.
  intros Hne Hq Hr. np_unfold.
  rewrite broadcast2_mismatch by (rewrite ?length_map; assumption).
  now rewrite length_map.
Qed.

(** The vectorised code computes [round_hex_point] at every index of the
    broadcast of its two arguments, and raises exactly when they cannot be
    broadcast. *)
Lemma _round_hex_pointwise (qs rs : list float) :
  _round_hex qs rs =
  (pts <- Np.broadcast2 round_hex_point qs rs ;; Ok (map fst pts, map snd pts)).
Proof.
  destruct (Nat.eq_dec (List.length qs) (List.length rs)) as [E|NE].
  - rewrite <- (combine_map_fst qs rs E) at 1 2.
    rewrite <- (combine_map_snd qs rs E) at 2 4.
    rewrite _round_hex_map, broadcast2_map. cbn [bind].
    now rewrite !map_map.
  - destruct (Nat.eq_dec (List.length qs) 1) as [Q1|Q1].
    + destruct qs as [|a [|a' qs]]; try discriminate Q1.
      rewrite <- (map_id rs) at 1.
      rewrite _round_hex_stretch_q, broadcast2_one_l. cbn [bind].
      now rewrite !map_map.
    + destruct (Nat.eq_dec (List.length rs) 1) as [R1|R1].
      * destruct rs as [|b [|b' rs]]; try discriminate R1.
        rewrite <- (map_id qs) at 1.
        rewrite _round_hex_stretch_r, broadcast2_one_r. cbn [bind].
        now rewrite !map_map.
      * rewrite _round_hex_mismatch, broadcast2_mismatch by assumption.
        reflexivity.
Qed.

(** ** [cartesian_to_axial] works point by point *)

Ltac c2a_unfold :=
  unfold cartesian_to_axial, Np.add, Np.scalar_mul, Np.mul_scalar, Np.div_scalar,
    Np.negative.

Lemma cartesian_to_axial_map {P : Type} (g h : P -> float) (ps : list P)
    (size : float) (orientation : string) (aspect_scale : float) :
  cartesian_to_axial (map g ps) (map h ps) size orientation aspect_scale =
  Ok (map (fun p => fst (tile_of size orientation aspect_scale (g p) (h p))) ps,
      map (fun p => snd (tile_of size orientation aspect_scale (g p) (h p))) ps).
Proof.
  c2a_unfold. np_step. rewrite _round_hex_map. reflexivity.
Qed.

Lemma cartesian_to_axial_stretch_x {P : Type} (a : float) (h : P -> float) (ps : list P)
    (size : float) (orientation : string) (aspect_scale : float) :
  cartesian_to_axial [a] (map h ps) size orientation aspect_scale =
  Ok (map (fun p => fst (tile_of size orientation aspect_scale a (h p))) ps,
      map (fun p => snd (tile_of size orientation aspect_scale a (h p))) ps).
Proof.
  c2a_unfold. np_stretch. rewrite _round_hex_map. reflexivity.
Qed.

Lemma cartesian_to_axial_stretch_y {P : Type} (g : P -> float) (ps : list P) (b : float)
    (size : float) (orientation : string) (aspect_scale : float) :
  cartesian_to_axial (map g ps) [b] size orientation aspect_scale =
  Ok (map (fun p => fst (tile_of size orientation aspect_scale (g p) b)) ps,
      map (fun p => snd (tile_of size orientation aspect_scale (g p) b)) ps).
Proof.
  c2a_unfold. np_stretch. rewrite _round_hex_map. reflexivity.
Qed.

Lemma cartesian_to_axial_mismatch (x y : list float)
    (size : float) (orientation : string) (aspect_scale : float) :
  List.length x <> List.length y ->
  List.length x <> 1%nat -> List.length y <> 1%nat ->
  cartesian_to_axial x y size orientation aspect_scale =
  Raise (ValueError_broadcast (List.length x) (List.length y)).
Proof.
  intros Hne Hx Hy. c2a_unfold.
  rewrite broadcast2_mismatch by (rewrite ?length_map; assumption).
  now rewrite !length_map.
Qed.

Lemma cartesian_to_axial_pointwise (x y : list float)
    (size : float) (orientation : string) (aspect_scale : float) :
  cartesian_to_axial x y size orientation aspect_scale =
  (pts <- Np.broadcast2 (tile_of size orientation aspect_scale) x y ;;
   Ok (map fst pts, map snd pts)).
Proof.
  destruct (Nat.eq_dec (List.length x) (List.length y)) as [E|NE].
  - rewrite <- (combine_map_fst x y E) at 1 2.
    rewrite <- (combine_map_snd x y E) at 2 4.
    rewrite cartesian_to_axial_map, broadcast2_map. cbn [bind].
    now rewrite !map_map.
  - destruct (Nat.eq_dec (List.length x) 1) as [X1|X1].
    + destruct x as [|a [|a' x]]; try discriminate X1.
      rewrite <- (map_id y) at 1.
      rewrite cartesian_to_axial_stretch_x, broadcast2_one_l. cbn [bind].
      now rewrite !map_map.
    + destruct (Nat.eq_dec (List.length y) 1) as [Y1|Y1].
      * destruct y as [|b [|b' y]]; try discriminate Y1.
        rewrite <- (map_id x) at 1.
        rewrite cartesian_to_axial_stretch_y, broadcast2_one_r. cbn [bind].
        now rewrite !map_map.
      * rewrite cartesian_to_axial_mismatch, broadcast2_mismatch by assumption.
        reflexivity.
Qed.

(** ** Comparisons of binary64 values *)

Lemma SFcompare_swap (a b : float) :
  SFcompare b a = option_map CompOpp (SFcompare a b).
Proof.
  destruct a as [sa|sa| |sa ma ea], b as [sb|sb| |sb mb eb]; simpl;
    try reflexivity;
    try (destruct sa; reflexivity); try (destruct sb; reflexivity);
    try (destruct sa, sb; reflexivity).
  destruct sa, sb; simpl; try reflexivity;
    rewrite (Z.compare_antisym ea eb);
    destruct (Z.compare ea eb) eqn:E; simpl; try reflexivity;
    rewrite (ZC4 mb ma);
    destruct (Pos.compare_cont Eq ma mb); reflexivity.
Qed.

(** Equal values are not strictly ordered. *)
Lemma eqb_not_gtb (a b : float) : F64.eqb a b = true -> gtb a b = false.
Proof.
  unfold F64.eqb, gtb, SFeqb, SFltb. rewrite (SFcompare_swap a b).
  destruct (SFcompare a b) as [[| |]|]; simpl; congruence.
Qed.

(** ** The rounding rule *)

(** C1: at every index, [_round_hex] takes the cube coordinates [x = q],
    [z = r], [y = -x-z], rounds them to [rx], [ry], [rz] with the errors
    [dx], [dy], [dz], and returns [q = -(ry+rz)] when [dx] is strictly
    greater than both [dy] and [dz] and [q = rx] otherwise, [r = -(rx+ry)]
    when [dx] is not strictly largest and [dy] is not strictly greater than
    [dz] and [r = rz] otherwise.  A three-way tie [dx = dy = dz] takes the
    z-correction: [q = rx] and [r = -(rx+ry)]. *)
Theorem round_hex_branches (qs rs : list float) :
  List.length qs = List.length rs ->
  _round_hex qs rs =
    Ok (Np.zip_with (fun q r =>
          astype_int (if gtb (dx q) (dy q r) && gtb (dx q) (dz r)
                      then neg (F64.add (ry q r) (rz r)) else rx q)) qs rs,
        Np.zip_with (fun q r =>
          astype_int (if negb (gtb (dx q) (dy q r) && gtb (dx q) (dz r))
                         && negb (gtb (dy q r) (dz r))
                      then neg (F64.add (rx q) (ry q r)) else rz r)) qs rs)
  /\ (forall q r : float,
        F64.eqb (dx q) (dy q r) = true -> F64.eqb (dy q r) (dz r) = true ->
        _round_hex [q] [r] =
          Ok ([astype_int (rx q)], [astype_int (neg (F64.add (rx q) (ry q r)))])).
Proof.
  intros E. split.
  - rewrite <- (combine_map_fst qs rs E) at 1 2 3.
    rewrite <- (combine_map_snd qs rs E) at 2 4 6.
    rewrite _round_hex_map, !zip_with_map. reflexivity.
  - intros q r Hxy Hyz.
    rewrite _round_hex_pointwise, broadcast2_one_l. cbn [bind map fst snd].
    unfold round_hex_point, x_is_largest.
    rewrite (eqb_not_gtb _ _ Hxy), (eqb_not_gtb _ _ Hyz). reflexivity.
Qed.

Lemma round_hex_branches_witness :
  _round_hex [of_Z 1; of_Z 7] [of_Z 2; of_Z (-3)] = Ok ([1; 7], [2; -3])
  /\ _round_hex [of_Z 1] [of_Z 2] = Ok ([1], [2]).
Proof.
  split.
  - etransitivity;
      [ exact (proj1 (round_hex_branches [of_Z 1; of_Z 7] [of_Z 2; of_Z (-3)] eq_refl))
      | vm_compute; reflexivity ].
  - etransitivity;
      [ exact (proj2 (round_hex_branches [of_Z 1] [of_Z 2] eq_refl)
                 (of_Z 1) (of_Z 2) eq_refl eq_refl)
      | vm_compute; reflexivity ].
Defined.

(** ** Orientation and aspect scale *)

Lemma basis_values :
  _HEX_FLAT <> _HEX_POINTY.
Proof. vm_compute. discriminate. Qed.

(** C7: an orientation that is neither ["pointytop"] nor ["flattop"] raises
    nothing of its own.  [cartesian_to_axial] then rounds
    [q = sqrt(3)/3 * x' + (-1/3) * y'] and [r = 0 * x' + 2/3 * y'], the
    pointy-top combination, of [x' = x / size * 1] and [y' = -y / size / 1];
    so it returns tiles for arrays of one shape, and its outcome is the one
    of ["pointytop"] with an aspect scale of one.  The flat-top coefficients
    [2/3, 0, -1/3, sqrt(3)/3] are used for ["flattop"]. *)
Theorem unrecognized_orientation_is_pointytop
    (x y : list float) (size : float) (orientation : string) (aspect_scale : float) :
  orientation <> "flattop"%string -> orientation <> "pointytop"%string ->
  let x' := map (fun v => F64.mul (F64.div v size) one) x in
  let y' := map (fun v => F64.div (F64.div (F64.neg v) size) one) y in
  cartesian_to_axial x y size orientation aspect_scale =
    (q <- Np.add (map (F64.mul (div (sqrt (of_Z 3)) (of_Z 3))) x')
                 (map (F64.mul (div (neg (of_Z 1)) (of_Z 3))) y') ;;
     r <- Np.add (map (F64.mul zero) x')
                 (map (F64.mul (div (of_Z 2) (of_Z 3))) y') ;;
     _round_hex q r)
  /\ (List.length x = List.length y ->
      exists q r : list Z,
        cartesian_to_axial x y size orientation aspect_scale = Ok (q, r)
        /\ List.length q = List.length x /\ List.length r = List.length x)
  /\ cartesian_to_axial x y size orientation aspect_scale =
     cartesian_to_axial x y size "pointytop" one
  /\ cartesian_to_axial x y size "flattop" aspect_scale =
     (let y'' := map (fun v => F64.div (F64.div (F64.neg v) size) aspect_scale) y in
      q <- Np.add (map (F64.mul (div (of_Z 2) (of_Z 3))) x')
                  (map (F64.mul zero) y'') ;;
      r <- Np.add (map (F64.mul (div (neg (of_Z 1)) (of_Z 3))) x')
                  (map (F64.mul (div (sqrt (of_Z 3)) (of_Z 3)))  y'') ;;
      _round_hex q r).
Proof.
  intros Hf Hp x' y'.
  apply String.eqb_neq in Hf. apply String.eqb_neq in Hp.
  split; [|split; [|split]].
  - unfold cartesian_to_axial, x', y', Np.scalar_mul, Np.mul_scalar, Np.div_scalar,
      Np.negative.
    rewrite Hf, Hp, !map_map. reflexivity.
  - intros E.
    rewrite cartesian_to_axial_pointwise, broadcast2_same by assumption.
    cbn [bind]. eexists _, _. split; [reflexivity|].
    rewrite !length_map, zip_with_length by assumption. split; reflexivity.
  - unfold cartesian_to_axial. rewrite Hf, Hp. reflexivity.
  - unfold cartesian_to_axial, x', Np.scalar_mul, Np.mul_scalar, Np.div_scalar,
      Np.negative.
    cbn [String.eqb Ascii.eqb Bool.eqb]. rewrite !map_map. reflexivity.
Qed.

Lemma unrecognized_orientation_is_pointytop_witness :
  cartesian_to_axial [of_Z 3; of_Z 0] [of_Z 0; of_Z 5] one "hexagonal" (of_Z 2)
    = Ok ([2; 2], [0; -3])
  /\ cartesian_to_axial [of_Z 3; of_Z 0] [of_Z 0; of_Z 5] one "hexagonal" (of_Z 2) =
     cartesian_to_axial [of_Z 3; of_Z 0] [of_Z 0; of_Z 5] one "pointytop" one.
Proof.
  pose proof (unrecognized_orientation_is_pointytop
                [of_Z 3; of_Z 0] [of_Z 0; of_Z 5] one "hexagonal" (of_Z 2)
                ltac:(discriminate) ltac:(discriminate)) as [H1 [_ [H3 _]]].
  split; [|exact H3].
  etransitivity; [exact H1|]. vm_compute. reflexivity.
Defined.

(** C10: with an orientation that is neither ["pointytop"] nor ["flattop"]
    the outcome of [cartesian_to_axial] does not depend on the aspect scale:
    neither correction is applied, although the pointy-top basis is used. *)
Theorem unrecognized_orientation_ignores_aspect_scale
    (x y : list float) (size : float) (orientation : string) (a1 a2 : float) :
  orientation <> "pointytop"%string -> orientation <> "flattop"%string ->
  cartesian_to_axial x y size orientation a1 =
  cartesian_to_axial x y size orientation a2.
Proof.
  intros Hp Hf.
  apply String.eqb_neq in Hf. apply String.eqb_neq in Hp.
  unfold cartesian_to_axial. rewrite Hf, Hp. reflexivity.
Qed.

Lemma unrecognized_orientation_ignores_aspect_scale_witness :
  cartesian_to_axial [of_Z 3] [of_Z 4] one "pointy" (of_Z 2) =
  cartesian_to_axial [of_Z 3] [of_Z 4] one "pointy" (of_Z 5).
Proof.
  apply (unrecognized_orientation_ignores_aspect_scale
           [of_Z 3] [of_Z 4] one "pointy" (of_Z 2) (of_Z 5)); discriminate.
Defined.

(** ** Size and shapes *)

(** C4 fails as stated: a negative or zero size raises nothing, the
    division is carried out and tiles are returned. *)
Lemma nonpositive_size_is_accepted :
  cartesian_to_axial [of_Z 3; of_Z 0] [of_Z 0; of_Z 5] (of_Z (-1)) "pointytop" one
    = Ok ([-2; -2], [0; 3])
  /\ cartesian_to_axial [of_Z 3] [of_Z 0] zero "pointytop" one
    = Ok ([int64_min], [int64_min])
  /\ ~ (exists e, cartesian_to_axial [of_Z 3] [of_Z 0] (of_Z (-1)) "pointytop" one = Raise e).
Proof.
  split; [|split].
  - vm_compute. reflexivity.
  - vm_compute. reflexivity.
  - intros [e H]. vm_compute in H. discriminate H.
Qed.

(** C4, amended: [cartesian_to_axial] does not look at the sign of [size].
    For every batch of equally long [x] and [y] and every [size], zero and
    negative ones included, it raises nothing and returns one tile per
    point. *)
Theorem size_is_not_validated
    (x y : list float) (size : float) (orientation : string) (aspect_scale : float) :
  List.length x = List.length y ->
  exists q r : list Z,
    cartesian_to_axial x y size orientation aspect_scale = Ok (q, r)
    /\ List.length q = List.length x /\ List.length r = List.length x.
Proof.
  intros E.
  rewrite cartesian_to_axial_pointwise, broadcast2_same by assumption.
  cbn [bind]. eexists _, _. split; [reflexivity|].
  rewrite !length_map, zip_with_length by assumption. split; reflexivity.
Qed.

Lemma size_is_not_validated_witness :
  exists q r : list Z,
    cartesian_to_axial [of_Z 3; of_Z 0] [of_Z 0; of_Z 5] (of_Z (-1)) "flattop" one = Ok (q, r)
    /\ List.length q = 2%nat /\ List.length r = 2%nat.
Proof.
  exact (size_is_not_validated [of_Z 3; of_Z 0] [of_Z 0; of_Z 5] (of_Z (-1))
           "flattop" one eq_refl).
Defined.

(** C5 fails as stated: an array of one element is broadcast against the
    other one, whatever its length. *)
Lemma length_one_is_broadcast :
  cartesian_to_axial [of_Z 3; of_Z 0] [of_Z 0] one "pointytop" one = Ok ([2; 0], [0; 0])
  /\ hexbin ["pandas"%string] [of_Z 3; of_Z 0] [of_Z 0] one "pointytop" one
     = Ok [((0, 0), 1); ((2, 0), 1)].
Proof. split; vm_compute; reflexivity. Qed.

(** C5, amended: when [x] and [y] have different lengths and neither has
    exactly one element, [cartesian_to_axial] raises the broadcasting
    [ValueError] and so does [hexbin]; nothing is returned. *)
Theorem mismatched_lengths_raise
    (installed : list string) (x y : list float) (size : float)
    (orientation : string) (aspect_scale : float) :
  List.length x <> List.length y ->
  List.length x <> 1%nat -> List.length y <> 1%nat ->
  cartesian_to_axial x y size orientation aspect_scale
    = Raise (ValueError_broadcast (List.length x) (List.length y))
  /\ hexbin installed x y size orientation aspect_scale
    = Raise (ValueError_broadcast (List.length x) (List.length y)).
Proof.
  intros Hne Hx Hy.
  pose proof (cartesian_to_axial_mismatch x y size orientation aspect_scale Hne Hx Hy) as H.
  split; [exact H|].
  unfold hexbin. rewrite H. reflexivity.
Qed.

Lemma mismatched_lengths_raise_witness :
  cartesian_to_axial [of_Z 1; of_Z 2; of_Z 3] [of_Z 1; of_Z 2] one "pointytop" one
    = Raise (ValueError_broadcast 3 2)
  /\ hexbin ["pandas"%string] [of_Z 1; of_Z 2; of_Z 3] [of_Z 1; of_Z 2] one "pointytop" one
    = Raise (ValueError_broadcast 3 2).
Proof.
  refine (mismatched_lengths_raise ["pandas"%string]
            [of_Z 1; of_Z 2; of_Z 3] [of_Z 1; of_Z 2] one "pointytop" one _ _ _);
    simpl; lia.
Defined.

(** ** The optional dependency *)






(** ** Grouping and counting *)

Module PdFacts.
Import Pd.

Fixpoint sum_counts (rows : list row) : Z :=
  match rows with
  | [] => 0
  | rw :: rest => snd rw + sum_counts rest
  end.

Definition key_eq_dec (a b : key) : {a = b} + {a <> b}.
Proof. decide equality; apply Z.eq_dec. Defined.

(** Keys strictly increasing along the rows. *)
Fixpoint increasing (rows : list row) : Prop :=
  match rows with
  | [] => True
  | rw :: rest =>
      (forall rw', In rw' rest -> key_compare (fst rw) (fst rw') = Lt)
      /\ increasing rest
  end.

Lemma key_compare_eq (a b : key) : key_compare a b = Eq <-> a = b.
Proof.
  destruct a as [a1 a2], b as [b1 b2]; unfold key_compare; simpl.
  destruct (Z.compare_spec a1 b1) as [E|L|G].
  - rewrite Z.compare_eq_iff. split; [intros ->; now subst|].
    intros H; now inversion H.
  - split; [discriminate|]. intros H; inversion H; lia.
  - split; [discriminate|]. intros H; inversion H; lia.
Qed.

Lemma key_compare_lt (a b : key) :
  key_compare a b = Lt <-> fst a < fst b \/ (fst a = fst b /\ snd a < snd b).
Proof.
  destruct a as [a1 a2], b as [b1 b2]; unfold key_compare; simpl.
  destruct (Z.compare_spec a1 b1) as [E|L|G]; rewrite ?Z.compare_lt_iff;
    split; intros; try discriminate; try lia; reflexivity.
Qed.

Lemma key_compare_gt (a b : key) : key_compare a b = Gt <-> key_compare b a = Lt.
Proof.
  destruct a as [a1 a2], b as [b1 b2]; unfold key_compare; simpl.
  rewrite (Z.compare_antisym a1 b1), (Z.compare_antisym a2 b2).
  destruct (Z.compare a1 b1), (Z.compare a2 b2); simpl; split; congruence.
Qed.

Lemma key_compare_trans (a b c : key) :
  key_compare a b = Lt -> key_compare b c = Lt -> key_compare a c = Lt.
Proof. rewrite !key_compare_lt. lia. Qed.

Lemma key_compare_irrefl (a : key) : key_compare a a <> Lt.
Proof. rewrite key_compare_lt. lia. Qed.

Lemma tally_sum (k : key) (rows : list row) :
  sum_counts (tally k rows) = sum_counts rows + 1.
Proof.
  induction rows as [|[k' c] rest IH]; cbn [tally sum_counts fst snd]; [reflexivity|].
  destruct (key_compare k k'); cbn [sum_counts fst snd]; lia.
Qed.

Lemma groupby_fold_sum (df : list key) (rows : list row) :
  sum_counts (fold_left (fun groups k => tally k groups) df rows)
  = sum_counts rows + Z.of_nat (List.length df).
Proof.
  revert rows; induction df as [|k df IH]; intros rows; cbn [fold_left List.length].
  - simpl. lia.
  - rewrite IH, tally_sum. lia.
Qed.

Lemma tally_keys (k : key) (rows : list row) (rw : row) :
  In rw (tally k rows) ->
  fst rw = k \/ exists rw', In rw' rows /\ fst rw' = fst rw.
Proof.
  induction rows as [|[k' c] rest IH]; simpl.
  - intros [<-|[]]. now left.
  - destruct (key_compare k k') eqn:E; simpl.
    + intros [<-|H]; right.
      * exists (k', c). split; [now left|reflexivity].
      * exists rw. split; [now right|reflexivity].
    + intros [<-|[<-|H]].
      * now left.
      * right. exists (k', c). split; [now left|reflexivity].
      * right. exists rw. split; [now right|reflexivity].
    + intros [<-|H].
      * right. exists (k', c). split; [now left|reflexivity].
      * destruct (IH H) as [L|[rw' [Hin Hk]]]; [now left|].
        right. exists rw'. split; [now right|assumption].
Qed.

Lemma tally_increasing (k : key) (rows : list row) :
  increasing rows -> increasing (tally k rows).
Proof.
  induction rows as [|[k' c] rest IH]; simpl.
  - intros _. split; [intros ? []|exact I].
  - intros [Hhd Htl].
    destruct (key_compare k k') eqn:E; simpl.
    + split; assumption.
    + split; [|split; assumption].
      intros rw' [<-|Hin]; simpl; [assumption|].
      eapply key_compare_trans; [exact E|]. apply (Hhd rw' Hin).
    + split; [|now apply IH].
      intros rw' Hin. simpl.
      destruct (tally_keys k rest rw' Hin) as [->|[rw'' [Hin' Hk]]].
      * now apply key_compare_gt.
      * rewrite <- Hk. apply (Hhd rw'' Hin').
Qed.

Lemma groupby_fold_increasing (df : list key) (rows : list row) :
  increasing rows ->
  increasing (fold_left (fun groups k => tally k groups) df rows).
Proof.
  revert rows; induction df as [|k df IH]; intros rows H; cbn [fold_left];
    [assumption|]. apply IH, tally_increasing, H.
Qed.

Lemma increasing_NoDup (rows : list row) :
  increasing rows -> NoDup (map fst rows).
Proof.
  induction rows as [|rw rest IH]; simpl; [constructor|].
  intros [Hhd Htl]. constructor; [|now apply IH].
  intros Hin. apply in_map_iff in Hin. destruct Hin as [rw' [Hk Hin]].
  specialize (Hhd rw' Hin). rewrite Hk in Hhd. now apply key_compare_irrefl in Hhd.
Qed.

(** The count recorded for the key [k], zero when there is no record. *)
Fixpoint recorded (k : key) (rows : list row) : Z :=
  match rows with
  | [] => 0
  | rw :: rest => (if key_eq_dec (fst rw) k then snd rw else 0) + recorded k rest
  end.

Lemma tally_recorded (k k0 : key) (rows : list row) :
  recorded k (tally k0 rows) = recorded k rows + (if key_eq_dec k0 k then 1 else 0).
Proof.
  induction rows as [|[k' c] rest IH]; cbn [tally recorded fst snd].
  - lia.
  - destruct (key_compare k0 k') eqn:E; cbn [recorded fst snd].
    + apply key_compare_eq in E. subst k'.
      destruct (key_eq_dec k0 k); lia.
    + lia.
    + rewrite IH. lia.
Qed.

Lemma groupby_fold_recorded (k : key) (df : list key) (rows : list row) :
  recorded k (fold_left (fun groups k => tally k groups) df rows)
  = recorded k rows + Z.of_nat (count_occ key_eq_dec df k).
Proof.
  revert rows; induction df as [|k0 df IH]; intros rows; cbn [fold_left count_occ].
  - simpl. lia.
  - rewrite IH, tally_recorded. destruct (key_eq_dec k0 k); lia.
Qed.

Lemma recorded_absent (k : key) (rows : list row) :
  ~ In k (map fst rows) -> recorded k rows = 0.
Proof.
  induction rows as [|rw rest IH]; simpl; [reflexivity|].
  intros H. destruct (key_eq_dec (fst rw) k) as [E|N].
  - exfalso. apply H. now left.
  - rewrite IH; [reflexivity|]. intros Hin. apply H. now right.
Qed.

Lemma recorded_In (k : key) (c : Z) (rows : list row) :
  NoDup (map fst rows) -> In (k, c) rows -> recorded k rows = c.
Proof.
  induction rows as [|rw rest IH]; simpl; [intros _ []|].
  intros Hnd [->|Hin]; inversion Hnd as [|? ? Hnotin Hnd']; subst.
  - simpl. destruct (key_eq_dec k k) as [_|N]; [|contradiction].
    rewrite recorded_absent by assumption. lia.
  - destruct (key_eq_dec (fst rw) k) as [E|N].
    + exfalso. apply Hnotin. rewrite E. apply (in_map fst _ _ Hin).
    + rewrite IH by assumption. reflexivity.
Qed.

Lemma recorded_positive_In (k : key) (rows : list row) :
  (forall rw, In rw rows -> 0 <= snd rw) ->
  0 < recorded k rows -> In k (map fst rows).
Proof.
  induction rows as [|rw rest IH]; simpl; [lia|].
  intros Hpos H. destruct (key_eq_dec (fst rw) k) as [E|N]; [now left|].
  right. apply IH; [|lia]. intros rw' Hin. apply Hpos. now right.
Qed.

Lemma tally_positive (k : key) (rows : list row) :
  (forall rw, In rw rows -> 0 < snd rw) ->
  forall rw, In rw (tally k rows) -> 0 < snd rw.
Proof.
  induction rows as [|[k' c] rest IH]; simpl.
  - intros _ rw [<-|[]]. simpl. lia.
  - intros Hpos. destruct (key_compare k k'); simpl.
    + intros rw [<-|Hin]; simpl.
      * specialize (Hpos (k', c) (or_introl eq_refl)). simpl in Hpos. lia.
      * apply Hpos. now right.
    + intros rw [<-|Hin]; simpl; [lia|]. apply Hpos. exact Hin.
    + intros rw [<-|Hin].
      * apply Hpos. now left.
      * apply IH; [|assumption]. intros rw' Hin'. apply Hpos. now right.
Qed.

Lemma groupby_fold_positive (df : list key) (rows : list row) :
  (forall rw, In rw rows -> 0 < snd rw) ->
  forall rw, In rw (fold_left (fun groups k => tally k groups) df rows) -> 0 < snd rw.
Proof.
  revert rows; induction df as [|k df IH]; intros rows H; cbn [fold_left];
    [assumption|]. apply IH, tally_positive, H.
Qed.

End PdFacts.

Lemma combine_fst_snd {A B : Type} (l : list (A * B)) :
  combine (map fst l) (map snd l) = l.
Proof. induction l as [|[a b] l IH]; simpl; congruence. Qed.

Lemma import_optional_installed (installed : list string) (m : string) :
  In m installed -> import_optional installed m = Some m.
Proof.
  intros H. unfold import_optional.
  replace (existsb (String.eqb m) installed) with true; [reflexivity|].
  symmetry. apply existsb_exists. exists m. split; [assumption|apply String.eqb_refl].
Qed.

(** With pandas at hand and arrays of one shape, [hexbin] groups the tiles
    of the points. *)
Lemma hexbin_groups (installed : list string) (x y : list float) (size : float)
    (orientation : string) (aspect_scale : float) :
  In "pandas"%string installed -> List.length x = List.length y ->
  hexbin installed x y size orientation aspect_scale =
  Ok (Pd.groupby_size (Np.zip_with (tile_of size orientation aspect_scale) x y)).
Proof.
  intros Hpd E. unfold hexbin.
  rewrite import_optional_installed by assumption. cbn [bind].
  rewrite cartesian_to_axial_pointwise, broadcast2_same by assumption.
  cbn [bind fst snd]. unfold Pd.DataFrame. now rewrite combine_fst_snd.
Qed.

(** C8: for a batch of equally long [x] and [y] (and pandas installed) the
    counts of the records of [hexbin] add up to the number of points; there
    is one record per occupied tile, whose count is the number of points of
    the batch on that tile; the empty batch gives no record; two points on
    one tile give one record with a count of two. *)
Theorem hexbin_counts (installed : list string) (x y : list float) (size : float)
    (orientation : string) (aspect_scale : float) :
  In "pandas"%string installed -> List.length x = List.length y ->
  let tiles := Np.zip_with (tile_of size orientation aspect_scale) x y in
  exists rows : list Pd.row,
    hexbin installed x y size orientation aspect_scale = Ok rows
    /\ PdFacts.sum_counts rows = Z.of_nat (List.length x)
    /\ NoDup (map fst rows)
    /\ (forall k c, In (k, c) rows ->
          0 < c /\ c = Z.of_nat (count_occ PdFacts.key_eq_dec tiles k))
    /\ (forall k, In k tiles -> In k (map fst rows))
    /\ (x = [] -> rows = [])
    /\ (forall x1 y1 x2 y2 : float,
          tile_of size orientation aspect_scale x1 y1
            = tile_of size orientation aspect_scale x2 y2 ->
          hexbin installed [x1; x2] [y1; y2] size orientation aspect_scale
            = Ok [(tile_of size orientation aspect_scale x1 y1, 2)]).
Proof.
  intros Hpd E tiles.
  exists (Pd.groupby_size tiles).
  assert (Hinc : PdFacts.increasing (Pd.groupby_size tiles))
    by (apply PdFacts.groupby_fold_increasing; exact I).
  assert (Hnd : NoDup (map fst (Pd.groupby_size tiles)))
    by (apply PdFacts.increasing_NoDup, Hinc).
  assert (Hpos : forall rw, In rw (Pd.groupby_size tiles) -> 0 < snd rw)
    by (apply PdFacts.groupby_fold_positive; intros ? []).
  assert (Hrec : forall k, PdFacts.recorded k (Pd.groupby_size tiles)
                           = Z.of_nat (count_occ PdFacts.key_eq_dec tiles k))
    by (intros k; unfold Pd.groupby_size;
        rewrite PdFacts.groupby_fold_recorded; reflexivity).
  repeat split.
  - apply hexbin_groups; assumption.
  - unfold Pd.groupby_size. rewrite PdFacts.groupby_fold_sum.
    unfold tiles. rewrite zip_with_length by assumption. reflexivity.
  - exact Hnd.
  - apply (Hpos (k, c)); assumption.
  - rewrite <- Hrec. symmetry. apply PdFacts.recorded_In; assumption.
  - intros k Hin. apply PdFacts.recorded_positive_In.
    + intros rw Hrw. apply Z.lt_le_incl, Hpos, Hrw.
    + rewrite Hrec. apply (count_occ_In PdFacts.key_eq_dec) in Hin. lia.
  - intros ->. reflexivity.
  - intros x1 y1 x2 y2 Ht.
    rewrite hexbin_groups by (assumption || reflexivity).
    cbn [Np.zip_with]. rewrite <- Ht.
    unfold Pd.groupby_size. cbn [fold_left Pd.tally].
    replace (Pd.key_compare _ _) with Eq
      by (symmetry; apply PdFacts.key_compare_eq; reflexivity).
    reflexivity.
Qed.

Lemma hexbin_counts_witness :
  hexbin ["pandas"%string] [of_Z 3; of_Z 0; of_Z 3] [of_Z 0; of_Z 5; of_Z 0]
    one "pointytop" one = Ok [((2, -3), 1); ((2, 0), 2)]
  /\ hexbin ["pandas"%string] [of_Z 3; of_Z 3] [of_Z 0; of_Z 0] one "pointytop" one
     = Ok [((2, 0), 2)].
Proof.
  destruct (hexbin_counts ["pandas"%string] [of_Z 3; of_Z 0; of_Z 3]
              [of_Z 0; of_Z 5; of_Z 0] one "pointytop" one
              (or_introl eq_refl) eq_refl)
    as [rows [Hrows [_ [_ [_ [_ [_ Htwo]]]]]]].
  split.
  - vm_compute. reflexivity.
  - rewrite (Htwo (of_Z 3) (of_Z 0) (of_Z 3) (of_Z 0) eq_refl).
    vm_compute. reflexivity.
Defined.

(** ** Binary64 arithmetic on integers *)

Lemma iter_pos_iter {A : Type} (f : A -> A) (p : positive) (x : A) :
  iter_pos f p x = Pos.iter f x p.
Proof.
  revert x; induction p as [p IH|p IH|]; intros x; simpl.
  - rewrite !IH, !Pos.iter_swap. reflexivity.
  - rewrite !IH. reflexivity.
  - reflexivity.
Qed.

Lemma digits2_size (p : positive) : digits2_pos p = Pos.size p.
Proof. induction p; simpl; congruence. Qed.

Lemma digits_bounds (p : positive) :
  2 ^ (Zpos (digits2_pos p) - 1) <= Zpos p < 2 ^ Zpos (digits2_pos p).
Proof.
  rewrite digits2_size. split.
  - pose proof (Pos.size_le p) as H.
    apply Pos2Z.pos_le_pos in H. rewrite Pos2Z.inj_pow in H.
    assert (E : 2 ^ Zpos (Pos.size p) = 2 * 2 ^ (Zpos (Pos.size p) - 1)).
    { rewrite <- Z.pow_succ_r by lia. f_equal. lia. }
    lia.
  - pose proof (Pos.size_gt p) as H.
    apply Pos2Z.pos_lt_pos in H. now rewrite Pos2Z.inj_pow in H.
Qed.

Lemma digits_unique (p : positive) (d : Z) :
  2 ^ (d - 1) <= Zpos p < 2 ^ d -> Zpos (digits2_pos p) = d.
Proof.
  intros [Hlo Hhi]. pose proof (digits_bounds p) as [Dlo Dhi].
  assert (0 < d).
  { destruct (Z.ltb_spec 0 d); [assumption|].
    assert (2 ^ d <= 2 ^ 0) by (apply Z.pow_le_mono_r; lia). simpl in *. lia. }
  destruct (Z.lt_trichotomy (Zpos (digits2_pos p)) d) as [L|[E|G]]; [|assumption|].
  - assert (2 ^ Zpos (digits2_pos p) <= 2 ^ (d - 1)) by (apply Z.pow_le_mono_r; lia). lia.
  - assert (2 ^ d <= 2 ^ (Zpos (digits2_pos p) - 1)) by (apply Z.pow_le_mono_r; lia). lia.
Qed.

Lemma iter_xO (m d : positive) : Zpos (Pos.iter xO m d) = Zpos m * 2 ^ Zpos d.
Proof.
  induction d as [|d IH] using Pos.peano_ind.
  - simpl. lia.
  - rewrite Pos.iter_succ, Pos2Z.inj_xO, IH, Pos2Z.inj_succ, Z.pow_succ_r by lia. lia.
Qed.

Lemma shl_align_spec (mx : positive) (ex ex' : Z) :
  ex' <= ex ->
  exists mz, shl_align mx ex ex' = (mz, ex') /\ Zpos mz = Zpos mx * 2 ^ (ex - ex').
Proof.
  intros H. unfold shl_align.
  destruct (ex' - ex) as [|d|d] eqn:E; try lia.
  - exists mx. replace ex' with ex by lia. rewrite Z.sub_diag. split; [reflexivity|simpl; lia].
  - exists (Pos.iter xO mx d). split; [reflexivity|].
    rewrite iter_xO. f_equal. f_equal. lia.
Qed.

(** One right shift. *)
Lemma shr_1_spec (m : Z) (r s : bool) :
  0 <= m ->
  shr_1 (Build_shr_record m r s) = Build_shr_record (m / 2) (Z.odd m) (r || s).
Proof.
  intros H. rewrite <- Z.div2_div.
  destruct m as [|[p|p|]|p]; try lia; reflexivity.
Qed.

Lemma shr_iter_spec (k : positive) (m : Z) (r s : bool) :
  0 <= m ->
  iter_pos shr_1 k (Build_shr_record m r s) = shifted m (Zpos k) r s.
Proof.
  intros Hm. rewrite iter_pos_iter.
  apply (Pos.iter_ind _ shr_1 (Build_shr_record m r s)
           (fun k st => st = shifted m (Zpos k) r s)).
  - rewrite shr_1_spec by assumption. unfold shifted. simpl (1 - 1).
    rewrite Z.pow_1_r, Z.pow_0_r, Z.mod_1_r, Z.bit0_odd. reflexivity.
  - intros p st ->. unfold shifted.
    assert (0 < 2 ^ Zpos p) by (apply Z.pow_pos_nonneg; lia).
    assert (0 < 2 ^ (Zpos p - 1)) by (apply Z.pow_pos_nonneg; lia).
    rewrite shr_1_spec by (apply Z.div_pos; lia).
    rewrite Pos2Z.inj_succ.
    replace (Z.succ (Zpos p) - 1) with (Zpos p) by lia.
    f_equal.
    + rewrite Z.pow_succ_r by lia. rewrite Z.div_div by lia. f_equal. lia.
    + rewrite Z.testbit_odd, Z.shiftr_div_pow2 by lia. reflexivity.
    + assert (E2 : 2 ^ Zpos p = 2 ^ (Zpos p - 1) * 2).
      { replace (Zpos p) with (Z.succ (Zpos p - 1)) at 1 by lia.
        rewrite Z.pow_succ_r by lia. lia. }
      rewrite E2, Z.rem_mul_r by lia.
      rewrite Z.testbit_odd, Z.shiftr_div_pow2 by lia.
      set (h := 2 ^ (Zpos p - 1)) in *.
      pose proof (Z.mod_pos_bound m h ltac:(lia)) as B1.
      set (lo := m mod h) in *.
      rewrite (Zmod_odd (m / h)).
      destruct (Z.odd (m / h));
        match goal with |- context [(?a =? 0)] => destruct (Z.eqb_spec a 0) end;
        destruct (Z.eqb_spec lo 0); destruct r, s; cbn [negb orb];
        try reflexivity; lia.
Qed.

Lemma fexp_eq (e : Z) : fexp prec emax e = Z.max (e - 53) (-1074).
Proof. reflexivity. Qed.

Lemma digits_shift (n : positive) (k : Z) (m : positive) :
  0 <= k -> Zpos m = Zpos n * 2 ^ k ->
  Zpos (digits2_pos m) = Zpos (digits2_pos n) + k.
Proof.
  intros Hk Hm. apply digits_unique. rewrite Hm.
  pose proof (digits_bounds n) as [Lo Hi].
  assert (0 < 2 ^ k) by (apply Z.pow_pos_nonneg; lia).
  replace (Zpos (digits2_pos n) + k - 1) with (Zpos (digits2_pos n) - 1 + k) by lia.
  rewrite !Z.pow_add_r by lia. split; nia.
Qed.

(** A mantissa that needs no shift goes through [binary_round_aux] as it is. *)
Lemma round_aux_canonical (s : bool) (m : positive) (e : Z) :
  fexp prec emax (Zpos (digits2_pos m) + e) <= e -> e <= 971 ->
  binary_round_aux prec emax s (Zpos m) e loc_Exact = S754_finite s m e.
Proof.
  intros Hf He. unfold binary_round_aux.
  assert (Hs : shr_fexp prec emax (Zpos m) e loc_Exact
               = (Build_shr_record (Zpos m) false false, e)).
  { unfold shr_fexp, shr, Zdigits2.
    destruct (fexp prec emax (Zpos (digits2_pos m) + e) - e) eqn:E; try reflexivity. lia. }
  rewrite Hs. cbn [shr_m loc_of_shr_record round_nearest_even]. rewrite Hs.
  cbn [shr_m]. replace (e <=? emax - prec) with true; [reflexivity|].
  symmetry. apply Z.leb_le. unfold emax, prec. lia.
Qed.

(** A mantissa with [k] spare zero bits is shifted right without loss. *)
Lemma round_aux_shift_exact (s : bool) (m0 mk : positive) (e k : Z) :
  0 < k -> Zpos mk = Zpos m0 * 2 ^ k ->
  fexp prec emax (Zpos (digits2_pos m0) + (e + k)) = e + k -> e + k <= 971 ->
  binary_round_aux prec emax s (Zpos mk) e loc_Exact = S754_finite s m0 (e + k).
Proof.
  intros Hk Hm Hf He. unfold binary_round_aux.
  assert (Hd : Zpos (digits2_pos mk) = Zpos (digits2_pos m0) + k)
    by (apply digits_shift; [lia|assumption]).
  assert (Hs : shr_fexp prec emax (Zpos mk) e loc_Exact
               = (Build_shr_record (Zpos m0) false false, e + k)).
  { unfold shr_fexp, shr, Zdigits2. rewrite Hd.
    replace (Zpos (digits2_pos m0) + k + e) with (Zpos (digits2_pos m0) + (e + k)) by lia.
    rewrite Hf. replace (e + k - e) with k by lia.
    destruct k as [|p|p]; try lia.
    cbn [shr_record_of_loc]. rewrite shr_iter_spec by lia. unfold shifted.
    assert (0 < 2 ^ (Zpos p - 1)) by (apply Z.pow_pos_nonneg; lia).
    assert (E2 : 2 ^ Zpos p = 2 ^ (Zpos p - 1) * 2).
    { replace (Zpos p) with (Z.succ (Zpos p - 1)) at 1 by lia.
      rewrite Z.pow_succ_r by lia. lia. }
    f_equal. f_equal.
    - rewrite Hm. apply Z.div_mul. lia.
    - rewrite Z.testbit_odd, Z.shiftr_div_pow2 by lia.
      rewrite Hm, E2. replace (Zpos m0 * (2 ^ (Zpos p - 1) * 2))
        with (Zpos m0 * 2 * 2 ^ (Zpos p - 1)) by lia.
      rewrite Z.div_mul by lia. rewrite Z.odd_mul. apply andb_false_r.
    - rewrite Hm, E2. replace (Zpos m0 * (2 ^ (Zpos p - 1) * 2))
        with (Zpos m0 * 2 * 2 ^ (Zpos p - 1)) by lia.
      rewrite Z.mod_mul by lia. reflexivity. }
  assert (Hs2 : shr_fexp prec emax (Zpos m0) (e + k) loc_Exact
               = (Build_shr_record (Zpos m0) false false, e + k)).
  { unfold shr_fexp, shr, Zdigits2. rewrite Hf, Z.sub_diag. reflexivity. }
  rewrite Hs. cbn [shr_m loc_of_shr_record round_nearest_even]. rewrite Hs2.
  cbn [shr_m]. replace (e + k <=? emax - prec) with true; [reflexivity|].
  symmetry. apply Z.leb_le. unfold emax, prec. lia.
Qed.

Lemma pos_of_Z (v : Z) : 0 < v -> exists p, Zpos p = v.
Proof. intros H. exists (Z.to_pos v). apply Z2Pos.id, H. Qed.

Lemma digits_le_53 (n : positive) : Zpos n < 2 ^ 53 -> Zpos (digits2_pos n) <= 53.
Proof.
  intros H. pose proof (digits_bounds n) as [Lo _].
  destruct (Z.leb_spec (Zpos (digits2_pos n)) 53) as [L|G]; [assumption|].
  assert (2 ^ 53 <= 2 ^ (Zpos (digits2_pos n) - 1)) by (apply Z.pow_le_mono_r; lia). lia.
Qed.

(** Rounding an integer of at most 53 bits, whatever power of two it was
    scaled by, gives its one 53-bit representation. *)
Lemma round_int (s : bool) (n mk : positive) (k : Z) :
  Zpos (digits2_pos n) <= 53 -> 0 <= k -> Zpos mk = Zpos n * 2 ^ k ->
  exists m, binary_round prec emax s mk (- k)
            = S754_finite s m (Zpos (digits2_pos n) - 53)
            /\ Zpos m = Zpos n * 2 ^ (53 - Zpos (digits2_pos n)).
Proof.
  intros Hd Hk Hm.
  set (d := Zpos (digits2_pos n)) in *.
  assert (0 < d) by (unfold d; lia).
  destruct (pos_of_Z (Zpos n * 2 ^ (53 - d))) as [m0 Hm0].
  { assert (0 < 2 ^ (53 - d)) by (apply Z.pow_pos_nonneg; lia). nia. }
  assert (Hd0 : Zpos (digits2_pos m0) = 53).
  { rewrite (digits_shift n (53 - d) m0) by (lia || congruence). fold d. lia. }
  assert (Hdk : Zpos (digits2_pos mk) = d + k) by (apply digits_shift; assumption).
  exists m0. split; [|assumption].
  unfold binary_round. rewrite Hdk.
  replace (d + k + - k) with d by lia.
  assert (HE : fexp prec emax d = d - 53) by (rewrite fexp_eq; lia).
  rewrite HE.
  destruct (Z.leb_spec (d - 53) (- k)) as [L|G].
  - destruct (shl_align_spec mk (- k) (d - 53) L) as [mz [-> Hmz]].
    assert (mz = m0).
    { apply Pos2Z.inj. rewrite Hmz, Hm, Hm0, <- Z.mul_assoc, <- Z.pow_add_r by lia.
      f_equal. f_equal. lia. }
    subst mz. apply round_aux_canonical; [|lia].
    rewrite Hd0, fexp_eq. lia.
  - assert (Ha : shl_align mk (- k) (d - 53) = (mk, - k)).
    { unfold shl_align. destruct (d - 53 - - k) eqn:E; try reflexivity. lia. }
    rewrite Ha.
    replace (d - 53) with (- k + (d - 53 + k)) by lia.
    apply round_aux_shift_exact; try lia.
    + rewrite Hm, Hm0, <- Z.mul_assoc, <- Z.pow_add_r by lia.
      f_equal. f_equal. lia.
    + rewrite Hd0, fexp_eq. lia.
Qed.

(** The float of an integer below [2^53], scaled or not. *)
Lemma normalize_int (c k : Z) (sz : bool) :
  Z.abs c < 2 ^ 53 -> 0 <= k -> c <> 0 ->
  binary_normalize prec emax (c * 2 ^ k) (- k) sz = of_Z c.
Proof.
  intros Hc Hk Hnz. unfold of_Z.
  assert (0 < 2 ^ k) by (apply Z.pow_pos_nonneg; lia).
  destruct c as [|n|n]; [contradiction| |].
  - destruct (pos_of_Z (Zpos n * 2 ^ k)) as [mk Hmk]; [nia|].
    rewrite <- Hmk. cbn [binary_normalize].
    destruct (round_int false n mk k) as [m [-> Hm]];
      [apply digits_le_53; lia|lia|assumption|].
    destruct (round_int false n n 0) as [m' [E' Hm']];
      [apply digits_le_53; lia|lia|simpl; lia|].
    simpl (- 0) in E'. rewrite E'. f_equal. apply Pos2Z.inj. congruence.
  - destruct (pos_of_Z (Zpos n * 2 ^ k)) as [mk Hmk]; [nia|].
    replace (Zneg n * 2 ^ k) with (Zneg mk) by lia. cbn [binary_normalize].
    destruct (round_int true n mk k) as [m [-> Hm]];
      [apply digits_le_53; lia|lia|assumption|].
    destruct (round_int true n n 0) as [m' [E' Hm']];
      [apply digits_le_53; lia|lia|simpl; lia|].
    simpl (- 0) in E'. rewrite E'. f_equal. apply Pos2Z.inj. congruence.
Qed.

(** The shape of the float of a non-zero integer below [2^53]. *)
Lemma of_Z_finite (c : Z) :
  c <> 0 -> Z.abs c < 2 ^ 53 ->
  exists m e, of_Z c = S754_finite (c <? 0) m e
              /\ e <= 0 /\ - 52 <= e /\ Zpos m = Z.abs c * 2 ^ (- e).
Proof.
  intros Hnz Hc. unfold of_Z.
  destruct c as [|n|n]; [contradiction| |]; cbn [binary_normalize];
    [destruct (round_int false n n 0) as [m [E Hm]]
    |destruct (round_int true n n 0) as [m [E Hm]]];
    try (apply digits_le_53; lia); try lia; try (simpl; lia);
    simpl (- 0) in E; rewrite E;
    pose proof (digits_le_53 n ltac:(lia));
    exists m, (Zpos (digits2_pos n) - 53);
    (split; [reflexivity|]); (split; [lia|]); (split; [lia|]);
    rewrite Hm; simpl Z.abs; f_equal; f_equal; lia.
Qed.

Lemma sub_add_neg (x y : float) : F64.sub x y = F64.add x (F64.neg y).
Proof.
  unfold F64.sub, F64.add, F64.neg.
  destruct x as [sx|sx| |sx mx ex], y as [sy|sy| |sy my ey]; cbn [SFsub SFadd SFopp];
    try reflexivity;
    try (destruct sx, sy; reflexivity).
Qed.

Lemma cond_Zopp_abs (c : Z) : cond_Zopp (c <? 0) (Z.abs c) = c.
Proof. destruct (Z.ltb_spec c 0); cbn [cond_Zopp]; lia. Qed.

Lemma add_of_Z (a b : Z) :
  Z.abs a < 2 ^ 53 -> Z.abs b < 2 ^ 53 -> Z.abs (a + b) < 2 ^ 53 ->
  F64.add (of_Z a) (of_Z b) = of_Z (a + b).
Proof.
  intros Ha Hb Hab.
  destruct (Z.eq_dec a 0) as [->|Na].
  { destruct (Z.eq_dec b 0) as [->|Nb]; [reflexivity|].
    destruct (of_Z_finite b Nb Hb) as [m [e [E _]]].
    simpl (0 + b). rewrite E. reflexivity. }
  destruct (Z.eq_dec b 0) as [->|Nb].
  { destruct (of_Z_finite a Na Ha) as [m [e [E _]]].
    rewrite Z.add_0_r, E. reflexivity. }
  destruct (of_Z_finite a Na Ha) as [ma [ea [Ea [Ea0 [Ea1 Hma]]]]].
  destruct (of_Z_finite b Nb Hb) as [mb [eb [Eb [Eb0 [Eb1 Hmb]]]]].
  rewrite Ea, Eb. unfold F64.add. cbn [SFadd].
  set (ez := Z.min ea eb).
  destruct (shl_align_spec ma ea ez ltac:(unfold ez; lia)) as [ma' [-> Hma']].
  destruct (shl_align_spec mb eb ez ltac:(unfold ez; lia)) as [mb' [-> Hmb']].
  cbn [fst].
  assert (Hez : ez <= 0) by (unfold ez; lia).
  assert (Hsum : cond_Zopp (a <? 0) (Zpos ma') + cond_Zopp (b <? 0) (Zpos mb')
                 = (a + b) * 2 ^ (- ez)).
  { rewrite Hma', Hmb', Hma, Hmb, <- !Z.mul_assoc, <- !Z.pow_add_r by lia.
    replace (- ea + (ea - ez)) with (- ez) by lia.
    replace (- eb + (eb - ez)) with (- ez) by lia.
    rewrite <- (cond_Zopp_abs a) at 3. rewrite <- (cond_Zopp_abs b) at 3.
    destruct (a <? 0), (b <? 0); cbn [cond_Zopp]; lia. }
  rewrite Hsum.
  destruct (Z.eq_dec (a + b) 0) as [Z0|NZ].
  - rewrite Z0. reflexivity.
  - replace ez with (- - ez) at 2 by lia.
    apply normalize_int; lia.
Qed.

Lemma neg_round_aux (s : bool) (m e : Z) (l : location) :
  SFopp (binary_round_aux prec emax s m e l) = binary_round_aux prec emax (negb s) m e l.
Proof.
  unfold binary_round_aux.
  destruct (shr_fexp prec emax m e l) as [mrs' e'].
  destruct (shr_fexp prec emax _ e' loc_Exact) as [mrs'' e''].
  destruct (shr_m mrs''); [reflexivity| |reflexivity].
  destruct (e'' <=? emax - prec); reflexivity.
Qed.

Lemma neg_of_Z (a : Z) : a <> 0 -> F64.neg (of_Z a) = of_Z (- a).
Proof.
  intros Na. unfold of_Z, F64.neg.
  destruct a as [|n|n]; [contradiction| |]; cbn [binary_normalize Z.opp];
    unfold binary_round;
    destruct (shl_align n 0 _) as [mz ez]; apply neg_round_aux.
Qed.

Lemma Int_of_Z (a : Z) : Z.abs a < 2 ^ 53 -> Int (of_Z a) a.
Proof. intros H. split; [assumption|now left]. Qed.

Lemma Int_zero (f : float) : Int f 0 -> exists s, f = S754_zero s.
Proof. intros [_ [->|[_ ->]]]; eexists; reflexivity. Qed.

Lemma Int_neg (f : float) (a : Z) : Int f a -> Int (F64.neg f) (- a).
Proof.
  intros [Ha [->|[-> ->]]]; (split; [lia|]).
  - destruct (Z.eq_dec a 0) as [->|Na].
    + right. split; reflexivity.
    + left. now apply neg_of_Z.
  - left. reflexivity.
Qed.

Lemma Int_add (f g : float) (a b : Z) :
  Int f a -> Int g b -> Z.abs (a + b) < 2 ^ 53 -> Int (F64.add f g) (a + b).
Proof.
  intros [Ha [->|[-> ->]]] [Hb [->|[-> ->]]] Hab; (split; [assumption|]).
  - left. now apply add_of_Z.
  - left. rewrite Z.add_0_r.
    destruct (Z.eq_dec a 0) as [->|Na]; [reflexivity|].
    destruct (of_Z_finite a Na Ha) as [m [e [E _]]]. rewrite E. reflexivity.
  - left. simpl (0 + b).
    destruct (Z.eq_dec b 0) as [->|Nb]; [reflexivity|].
    destruct (of_Z_finite b Nb Hb) as [m [e [E _]]]. rewrite E. reflexivity.
  - right. split; reflexivity.
Qed.

Lemma Int_sub (f g : float) (a b : Z) :
  Int f a -> Int g b -> Z.abs (a - b) < 2 ^ 53 -> Int (F64.sub f g) (a - b).
Proof.
  intros Hf Hg Hab. rewrite sub_add_neg.
  replace (a - b) with (a + - b) by lia.
  apply Int_add; [assumption|now apply Int_neg|]. replace (a + - b) with (a - b) by lia.
  assumption.
Qed.

Lemma Int_abs_zero (f : float) : Int f 0 -> F64.abs f = S754_zero false.
Proof. intros H. destruct (Int_zero f H) as [s ->]. reflexivity. Qed.

(** An integer is its own rounding. *)
Lemma rint_Int (f : float) (a : Z) : Int f a -> rint f = f.
Proof.
  intros [Ha [->|[-> ->]]]; [|reflexivity].
  destruct (Z.eq_dec a 0) as [->|Na]; [reflexivity|].
  destruct (of_Z_finite a Na Ha) as [m [e [E [E0 [E1 Hm]]]]].
  rewrite E. cbn [rint].
  destruct (Z.leb_spec 0 e) as [L|G]; [reflexivity|].
  assert (0 < 2 ^ (- e)) by (apply Z.pow_pos_nonneg; lia).
  unfold round_half_even. rewrite Hm, Z.mod_mul, Z.div_mul by lia.
  replace (2 * 0 ?= 2 ^ (- e)) with Lt by (symmetry; apply Z.compare_lt_iff; lia).
  rewrite <- E. unfold of_Z.
  destruct a as [|n|n]; [contradiction| |]; reflexivity.
Qed.

Lemma astype_int_Int (f : float) (a : Z) : Int f a -> astype_int f = a.
Proof.
  intros [Ha [->|[-> ->]]]; [|reflexivity].
  destruct (Z.eq_dec a 0) as [->|Na]; [reflexivity|].
  destruct (of_Z_finite a Na Ha) as [m [e [E [E0 [E1 Hm]]]]].
  rewrite E. cbn [astype_int]. unfold trunc.
  assert (0 < 2 ^ (- e)) by (apply Z.pow_pos_nonneg; lia).
  assert (Hv : (if 0 <=? e then Zpos m * 2 ^ e else Zpos m / 2 ^ (- e)) = Z.abs a).
  { destruct (Z.leb_spec 0 e) as [L|G].
    - assert (e = 0) by lia. subst e. rewrite Hm. simpl. lia.
    - rewrite Hm. apply Z.div_mul. lia. }
  rewrite Hv, cond_Zopp_abs.
  assert (2 ^ 53 < 2 ^ 63) by (apply Z.pow_lt_mono_r; lia).
  unfold int64_min, int64_max.
  replace (- 2 ^ 63 <=? a) with true by (symmetry; apply Z.leb_le; lia).
  replace (a <=? 2 ^ 63 - 1) with true by (symmetry; apply Z.leb_le; lia).
  reflexivity.
Qed.

Lemma valid_finite (s : bool) (m : positive) (e : Z) :
  valid (S754_finite s m e) = true ->
  Z.max (Zpos (digits2_pos m) + e - 53) (-1074) = e /\ e <= 971.
Proof.
  unfold valid, valid_binary, bounded, canonical_mantissa.
  rewrite andb_true_iff, Z.eqb_eq, Z.leb_le, fexp_eq. unfold emax, prec. lia.
Qed.

Lemma of_Z_canonical (s : bool) (n : positive) (m : positive) (e : Z) :
  e <= 0 -> Zpos (digits2_pos n) - 53 = e -> Zpos m = Zpos n * 2 ^ (- e) ->
  of_Z (cond_Zopp s (Zpos n)) = S754_finite s m e.
Proof.
  intros He Hd Hm. unfold of_Z.
  destruct (round_int s n n 0) as [m' [E Hm']]; [lia|lia|simpl; lia|].
  simpl (- 0) in E.
  replace (binary_normalize prec emax (cond_Zopp s (Zpos n)) 0 false)
    with (binary_round prec emax s n 0) by (destruct s; reflexivity).
  rewrite E, Hd. f_equal. apply Pos2Z.inj. rewrite Hm, Hm'. f_equal. f_equal. lia.
Qed.

Lemma int_value_Int (f : float) (a : Z) :
  valid f = true -> int_value f = Some a -> Z.abs a < 2 ^ 53 -> Int f a.
Proof.
  intros Hv Hi Ha. split; [assumption|].
  destruct f as [s|s| |s m e]; try discriminate Hi.
  - injection Hi as <-. destruct s; [right; split; reflexivity|left; reflexivity].
  - left. apply valid_finite in Hv. destruct Hv as [Hc He].
    pose proof (digits_bounds m) as [Lo Hi'].
    cbn [int_value] in Hi.
    destruct (Z.leb_spec 0 e) as [L|G].
    + assert (Ea : a = cond_Zopp s (Zpos m * 2 ^ e)) by congruence.
      subst a; clear Hi.
      assert (Hd : Zpos (digits2_pos m) = 53) by lia.
      rewrite Hd in Lo. simpl (53 - 1) in Lo.
      assert (e = 0).
      { destruct (Z.eq_dec e 0) as [|N]; [assumption|exfalso].
        assert (2 ^ 1 <= 2 ^ e) by (apply Z.pow_le_mono_r; lia).
        assert (Habs : Z.abs (cond_Zopp s (Zpos m * 2 ^ e)) = Zpos m * 2 ^ e)
          by (destruct s; cbn [cond_Zopp]; lia).
        assert (Hge : 2 ^ 52 * 2 ^ 1 <= Zpos m * 2 ^ e)
          by (apply Z.mul_le_mono_nonneg;
              [apply Z.pow_nonneg; lia|exact Lo|apply Z.pow_nonneg; lia|assumption]).
        rewrite Habs in Ha. change (2 ^ 53) with (2 ^ 52 * 2 ^ 1) in Ha. lia. }
      subst e. rewrite Z.pow_0_r, Z.mul_1_r. symmetry.
      apply of_Z_canonical; [lia|lia|simpl; lia].
    + destruct (Z.eqb_spec (Zpos m mod 2 ^ (- e)) 0) as [E0|N0]; [|discriminate Hi].
      assert (Ea : a = cond_Zopp s (Zpos m / 2 ^ (- e))) by congruence.
      subst a; clear Hi.
      assert (0 < 2 ^ (- e)) by (apply Z.pow_pos_nonneg; lia).
      assert (Hm : Zpos m = Zpos m / 2 ^ (- e) * 2 ^ (- e)).
      { rewrite (Z.div_mod (Zpos m) (2 ^ (- e))) at 1 by lia. lia. }
      destruct (pos_of_Z (Zpos m / 2 ^ (- e))) as [n Hn]; [nia|].
      rewrite <- Hn in *. symmetry.
      assert (Hdn : Zpos (digits2_pos m) = Zpos (digits2_pos n) + - e)
        by (apply digits_shift; [lia|assumption]).
      apply of_Z_canonical; [lia|lia|assumption].
Qed.

Lemma pow52_53 : 2 ^ 53 = 2 * 2 ^ 52.
Proof. reflexivity. Qed.

Lemma round_hex_point_Int (q r : float) (a b : Z) :
  Int q a -> Int r b -> Z.abs a < 2 ^ 52 -> Z.abs b < 2 ^ 52 ->
  round_hex_point q r = (a, b).
Proof.
  intros Hq Hr Ha Hb. pose proof pow52_53 as P.
  assert (Hy : Int (cube_y q r) (- a - b)).
  { unfold cube_y. apply Int_sub; [now apply Int_neg|assumption|lia]. }
  assert (Hdx : dx q = S754_zero false).
  { unfold dx, rx. rewrite (rint_Int q a Hq). apply Int_abs_zero.
    rewrite <- (Z.sub_diag a). apply Int_sub; try assumption. rewrite Z.sub_diag. lia. }
  assert (Hdy : dy q r = S754_zero false).
  { unfold dy, ry. rewrite (rint_Int _ _ Hy). apply Int_abs_zero.
    rewrite <- (Z.sub_diag (- a - b)). apply Int_sub; try assumption.
    rewrite Z.sub_diag. lia. }
  assert (Hdz : dz r = S754_zero false).
  { unfold dz, rz. rewrite (rint_Int r b Hr). apply Int_abs_zero.
    rewrite <- (Z.sub_diag b). apply Int_sub; try assumption. rewrite Z.sub_diag. lia. }
  unfold round_hex_point, x_is_largest. rewrite Hdx, Hdy, Hdz.
  cbn [gtb SFltb SFcompare andb negb].
  unfold rx, ry. rewrite (rint_Int q a Hq), (rint_Int _ _ Hy).
  f_equal.
  - now apply astype_int_Int.
  - apply astype_int_Int.
    replace b with (- (a + (- a - b))) by lia.
    apply Int_neg. apply Int_add; try assumption. lia.
Qed.

Lemma small_weaken (B B' : Z) (f : float) : B <= B' -> small B f -> small B' f.
Proof. intros H; destruct f; cbn [small]; try tauto. intros [? ?]; split; [assumption|lia]. Qed.

Lemma small_neg (B : Z) (f : float) : small B f -> small B (F64.neg f).
Proof. destruct f; cbn [small F64.neg SFopp]; tauto. Qed.

Lemma valid_intro (s : bool) (m : positive) (e : Z) :
  fexp prec emax (Zpos (digits2_pos m) + e) = e -> e <= 971 ->
  valid (S754_finite s m e) = true.
Proof.
  intros Hc He. unfold valid, valid_binary, bounded, canonical_mantissa.
  apply andb_true_iff. split; [now apply Z.eqb_eq|].
  apply Z.leb_le. unfold emax, prec. lia.
Qed.

Lemma rne_bounds (m : Z) (l : location) :
  m <= round_nearest_even m l <= m + 1.
Proof.
  destruct l as [|[| |]]; cbn [round_nearest_even]; try lia.
  destruct (Z.even m); lia.
Qed.

Lemma digits_53 (p : positive) : 2 ^ 52 <= Zpos p < 2 ^ 53 -> Zpos (digits2_pos p) = 53.
Proof. intros H. apply digits_unique. exact H. Qed.

(** A mantissa of more than 53 bits is rounded to one of 53 bits; the
    exponent grows by the bits dropped, and by one more when the rounding
    reaches the next power of two. *)
Lemma round_aux_inexact (s : bool) (p : positive) (e : Z) :
  53 < Zpos (digits2_pos p) -> -1074 <= e -> Zpos (digits2_pos p) + e - 52 <= 971 ->
  exists m' e',
    binary_round_aux prec emax s (Zpos p) e loc_Exact = S754_finite s m' e'
    /\ valid (S754_finite s m' e') = true
    /\ e' <= Zpos (digits2_pos p) + e - 52.
Proof.
  intros Hd He Hmax.
  set (d := Zpos (digits2_pos p)) in *.
  pose proof (digits_bounds p) as [Lo Hi]. fold d in Lo, Hi.
  set (E := d + e - 53).
  unfold binary_round_aux.
  assert (Hs : exists r1 s1, shr_fexp prec emax (Zpos p) e loc_Exact
               = (Build_shr_record (Zpos p / 2 ^ (d - 53)) r1 s1, E)).
  { unfold shr_fexp, shr, Zdigits2. fold d. rewrite fexp_eq.
    replace (Z.max (d + e - 53) (-1074) - e) with (d - 53) by lia.
    destruct (d - 53) as [|k|k] eqn:Ek; try lia.
    cbn [shr_record_of_loc]. rewrite shr_iter_spec by lia. unfold shifted.
    eexists _, _. f_equal. unfold E. lia. }
  destruct Hs as [r1 [s1 ->]]. cbn [shr_m].
  set (m1 := Zpos p / 2 ^ (d - 53)).
  assert (Hm1 : 2 ^ 52 <= m1 < 2 ^ 53).
  { assert (0 < 2 ^ (d - 53)) by (apply Z.pow_pos_nonneg; lia).
    assert (P1 : 2 ^ (d - 1) = 2 ^ 52 * 2 ^ (d - 53))
      by (rewrite <- Z.pow_add_r by lia; f_equal; lia).
    assert (P2 : 2 ^ d = 2 ^ 53 * 2 ^ (d - 53))
      by (rewrite <- Z.pow_add_r by lia; f_equal; lia).
    unfold m1. split.
    - apply Z.div_le_lower_bound; lia.
    - apply Z.div_lt_upper_bound; lia. }
  pose proof (rne_bounds m1 (loc_of_shr_record (Build_shr_record m1 r1 s1))) as Hr.
  set (m2 := round_nearest_even m1 _) in *.
  destruct (pos_of_Z m2) as [p2 Hp2]; [lia|]. rewrite <- Hp2.
  destruct (Z.eq_dec m2 (2 ^ 53)) as [Top|NTop].
  - assert (Hd2 : Zpos (digits2_pos p2) = 54).
    { apply digits_unique. rewrite Hp2, Top. simpl. lia. }
    assert (Hs2 : shr_fexp prec emax (Zpos p2) E loc_Exact
                  = (Build_shr_record (2 ^ 52) false false, E + 1)).
    { unfold shr_fexp, shr, Zdigits2. rewrite Hd2, fexp_eq.
      replace (Z.max (54 + E - 53) (-1074) - E) with 1 by (unfold E; lia).
      cbn [shr_record_of_loc]. rewrite shr_iter_spec by lia.
      rewrite Hp2, Top. reflexivity. }
    rewrite Hs2. cbn [shr_m].
    change (2 ^ 52) with (Zpos (Z.to_pos (2 ^ 52))).
    replace (E + 1 <=? emax - prec) with true
      by (symmetry; apply Z.leb_le; unfold emax, prec, E; lia).
    eexists _, _. split; [reflexivity|]. split; [|unfold E; lia].
    apply valid_intro; [|unfold E; lia].
    rewrite fexp_eq. simpl digits2_pos. unfold E. lia.
  - assert (Hd2 : Zpos (digits2_pos p2) = 53) by (apply digits_53; lia).
    assert (Hs2 : shr_fexp prec emax (Zpos p2) E loc_Exact
                  = (Build_shr_record (Zpos p2) false false, E)).
    { unfold shr_fexp, shr, Zdigits2. rewrite Hd2, fexp_eq.
      replace (Z.max (53 + E - 53) (-1074) - E) with 0 by (unfold E; lia).
      reflexivity. }
    rewrite Hs2. cbn [shr_m].
    replace (E <=? emax - prec) with true
      by (symmetry; apply Z.leb_le; unfold emax, prec, E; lia).
    eexists _, _. split; [reflexivity|]. split; [|unfold E; lia].
    apply valid_intro; [|unfold E; lia].
    rewrite Hd2, fexp_eq. unfold E. lia.
Qed.

Lemma digits_lt (p : positive) (k : Z) : Zpos p < 2 ^ k -> Zpos (digits2_pos p) <= k.
Proof.
  intros H. pose proof (digits_bounds p) as [Lo _].
  destruct (Z.leb_spec (Zpos (digits2_pos p)) k) as [L|G]; [assumption|].
  assert (2 ^ k <= 2 ^ (Zpos (digits2_pos p) - 1)) by (apply Z.pow_le_mono_r; lia). lia.
Qed.

(** Rounding a value below [2^51]. *)
Lemma round_small (s : bool) (p : positive) (e : Z) :
  -1074 <= e -> e <= 0 -> Zpos p < 2 ^ (51 - e) ->
  small (-1) (binary_round prec emax s p e).
Proof.
  intros He He0 Hp.
  pose proof (digits_lt p (51 - e) Hp) as Hd.
  set (d := Zpos (digits2_pos p)) in *.
  assert (0 < d) by (unfold d; lia).
  unfold binary_round. fold d. rewrite fexp_eq.
  set (E := Z.max (d + e - 53) (-1074)).
  destruct (Z.leb_spec E e) as [L|G].
  - destruct (shl_align_spec p e E L) as [mz [-> Hmz]].
    assert (Hdz : Zpos (digits2_pos mz) = d + (e - E))
      by (apply digits_shift; [lia|assumption]).
    rewrite round_aux_canonical by (rewrite ?Hdz, ?fexp_eq; unfold E; lia).
    cbn [small]. split; [|unfold E; lia].
    apply valid_intro; [|unfold E; lia]. rewrite Hdz, fexp_eq. unfold E. lia.
  - assert (Ha : shl_align p e E = (p, e)).
    { unfold shl_align. destruct (E - e) eqn:Eq; try reflexivity. lia. }
    rewrite Ha.
    destruct (round_aux_inexact s p e) as [m' [e' [-> [Hv He']]]];
      try (fold d; unfold E in G; lia).
    cbn [small]. split; [assumption|]. fold d in He'. lia.
Qed.

Lemma valid_bounds (s : bool) (m : positive) (e : Z) :
  valid (S754_finite s m e) = true -> -1074 <= e /\ Zpos m < 2 ^ 53.
Proof.
  intros Hv. apply valid_finite in Hv. destruct Hv as [Hc He].
  split; [lia|].
  pose proof (digits_bounds m) as [_ Hi].
  assert (2 ^ Zpos (digits2_pos m) <= 2 ^ 53) by (apply Z.pow_le_mono_r; lia). lia.
Qed.

(** The sum of two values below [2^50] is below [2^52]. *)
Lemma add_small (f g : float) :
  small (-3) f -> small (-3) g -> small (-1) (F64.add f g).
Proof.
  destruct f as [sf|sf| |sf mf ef], g as [sg|sg| |sg mg eg]; cbn [small];
    try tauto; intros Hf Hg.
  - unfold F64.add. cbn [SFadd]. destruct sf, sg; exact I.
  - unfold F64.add. cbn [SFadd small]. split; [tauto|lia].
  - unfold F64.add. cbn [SFadd small]. split; [tauto|lia].
  - destruct Hf as [Vf Ef], Hg as [Vg Eg].
    destruct (valid_bounds _ _ _ Vf) as [Lf Mf], (valid_bounds _ _ _ Vg) as [Lg Mg].
    unfold F64.add. cbn [SFadd].
    set (ez := Z.min ef eg).
    destruct (shl_align_spec mf ef ez ltac:(unfold ez; lia)) as [mf' [-> Hmf']].
    destruct (shl_align_spec mg eg ez ltac:(unfold ez; lia)) as [mg' [-> Hmg']].
    cbn [fst].
    assert (Bf : Zpos mf' < 2 ^ (50 - ez)).
    { rewrite Hmf'. replace (50 - ez) with (50 - ef + (ef - ez)) by lia.
      rewrite Z.pow_add_r by (unfold ez; lia).
      apply Z.mul_lt_mono_pos_r; [apply Z.pow_pos_nonneg; unfold ez; lia|].
      assert (2 ^ 53 <= 2 ^ (50 - ef)) by (apply Z.pow_le_mono_r; lia). lia. }
    assert (Bg : Zpos mg' < 2 ^ (50 - ez)).
    { rewrite Hmg'. replace (50 - ez) with (50 - eg + (eg - ez)) by lia.
      rewrite Z.pow_add_r by (unfold ez; lia).
      apply Z.mul_lt_mono_pos_r; [apply Z.pow_pos_nonneg; unfold ez; lia|].
      assert (2 ^ 53 <= 2 ^ (50 - eg)) by (apply Z.pow_le_mono_r; lia). lia. }
    assert (P : 2 ^ (51 - ez) = 2 * 2 ^ (50 - ez)).
    { replace (51 - ez) with (Z.succ (50 - ez)) by lia.
      apply Z.pow_succ_r. unfold ez; lia. }
    set (M := cond_Zopp sf (Zpos mf') + cond_Zopp sg (Zpos mg')).
    assert (BM : Z.abs M < 2 ^ (51 - ez))
      by (unfold M; destruct sf, sg; cbn [cond_Zopp]; lia).
    destruct M as [|pM|pM]; cbn [binary_normalize].
    + exact I.
    + apply round_small; [unfold ez; lia|unfold ez; lia|lia].
    + apply round_small; [unfold ez; lia|unfold ez; lia|lia].
Qed.

Lemma cube_y_small (q r : float) :
  small (-3) q -> small (-3) r -> small (-1) (cube_y q r).
Proof.
  intros Hq Hr. unfold cube_y. rewrite sub_add_neg.
  apply add_small; apply small_neg; assumption.
Qed.

Lemma round_half_even_bounds (m k : Z) :
  0 <= m -> 0 < k ->
  m / 2 ^ k <= round_half_even m k <= m / 2 ^ k + 1.
Proof.
  intros Hm Hk. unfold round_half_even.
  destruct (2 * (m mod 2 ^ k) ?= 2 ^ k); [destruct (Z.even _)| |]; lia.
Qed.

(** Rounding a small float gives an integer float, bounded like it. *)
Lemma rint_small (B : Z) (f : float) :
  -53 <= B <= -1 -> small B f ->
  exists a, Int (rint f) a /\ Z.abs a <= 2 ^ (53 + B).
Proof.
  intros HB Hf.
  assert (0 < 2 ^ (53 + B)) by (apply Z.pow_pos_nonneg; lia).
  assert (2 ^ (53 + B) <= 2 ^ 52) by (apply Z.pow_le_mono_r; lia).
  assert (P : 2 ^ 53 = 2 * 2 ^ 52) by reflexivity.
  destruct f as [s|s| |s m e]; cbn [small] in Hf; try contradiction.
  - exists 0. split; [|simpl; lia]. split; [simpl; lia|].
    destruct s; [right; split; reflexivity|left; reflexivity].
  - destruct Hf as [Hv He].
    destruct (valid_bounds _ _ _ Hv) as [Le Hm].
    cbn [rint]. replace (0 <=? e) with false by (symmetry; apply Z.leb_gt; lia).
    pose proof (round_half_even_bounds (Zpos m) (- e) ltac:(lia) ltac:(lia)) as [Nlo Nhi].
    assert (Hq : Zpos m / 2 ^ (- e) < 2 ^ (53 + B)).
    { assert (0 < 2 ^ (- e)) by (apply Z.pow_pos_nonneg; lia).
      apply Z.div_lt_upper_bound; [assumption|].
      rewrite <- Z.pow_add_r by lia.
      assert (2 ^ 53 <= 2 ^ (- e + (53 + B))) by (apply Z.pow_le_mono_r; lia). lia. }
    assert (0 <= Zpos m / 2 ^ (- e)) by (apply Z.div_pos; [lia|apply Z.pow_pos_nonneg; lia]).
    destruct (round_half_even (Zpos m) (- e)) as [|pN|pN] eqn:EN; try lia.
    + exists 0. split; [|simpl; lia]. split; [simpl; lia|].
      destruct s; [right; split; reflexivity|left; reflexivity].
    + exists (cond_Zopp s (Zpos pN)).
      assert (Z.abs (cond_Zopp s (Zpos pN)) = Zpos pN) by (destruct s; reflexivity).
      split; [|lia].
      replace (binary_normalize prec emax (cond_Zopp s (Zpos pN)) 0 s)
        with (of_Z (cond_Zopp s (Zpos pN))) by (destruct s; reflexivity).
      apply Int_of_Z. lia.
Qed.

Lemma Int_int_value (f : float) (a : Z) : Int f a -> int_value f = Some a.
Proof.
  intros [Ha [->|[-> ->]]]; [|reflexivity].
  destruct (Z.eq_dec a 0) as [->|Na]; [reflexivity|].
  destruct (of_Z_finite a Na Ha) as [m [e [E [E0 [E1 Hm]]]]].
  rewrite E. cbn [int_value].
  assert (0 < 2 ^ (- e)) by (apply Z.pow_pos_nonneg; lia).
  destruct (Z.leb_spec 0 e) as [L|G].
  - assert (e = 0) by lia. subst e. f_equal. rewrite Hm.
    change (2 ^ (- 0)) with 1. change (2 ^ 0) with 1. rewrite !Z.mul_1_r.
    apply cond_Zopp_abs.
  - rewrite Hm, Z.mod_mul, Z.div_mul by lia. rewrite Z.eqb_refl.
    f_equal. apply cond_Zopp_abs.
Qed.

Lemma of_Z_2p50 : of_Z (2 ^ 50) = S754_finite false (Z.to_pos (2 ^ 52)) (-2).
Proof. vm_compute. reflexivity. Qed.

Lemma ltb_finite_pos (m c : positive) (e e' : Z) :
  SFltb (S754_finite false m e) (S754_finite false c e') = true ->
  e < e' \/ (e = e' /\ Zpos m < Zpos c).
Proof.
  unfold SFltb. cbn [SFcompare].
  destruct (Z.compare_spec e e') as [E|L|G]; try discriminate; [|now left].
  rewrite Pos.compare_cont_spec.
  destruct (Pos.compare_spec m c) as [E'|L'|G']; cbn [Pos.switch_Eq]; try discriminate.
  intros _. right. split; [assumption|]. now apply Pos2Z.pos_lt_pos.
Qed.

Lemma below_small (f : float) :
  valid f = true -> below_2p50 f = true -> small (-3) f.
Proof.
  intros Hv Hb. unfold below_2p50, gtb in Hb. rewrite of_Z_2p50 in Hb.
  set (c := Z.to_pos (2 ^ 52)) in Hb.
  assert (Hc : Zpos c = 2 ^ 52) by (vm_compute; reflexivity).
  clearbody c.
  destruct f as [s|s| |s m e]; cbn [small].
  - exact I.
  - destruct s; discriminate Hb.
  - discriminate Hb.
  - split; [assumption|].
    unfold F64.abs in Hb. cbn [SFabs] in Hb.
    apply ltb_finite_pos in Hb.
    apply valid_finite in Hv. destruct Hv as [Hm _].
    pose proof (digits_bounds m) as [Lo _].
    destruct Hb as [L|[E L]]; [lia|].
    exfalso. subst e.
    assert (Hd : Zpos (digits2_pos m) - 1 = 52) by lia.
    rewrite Hd in Lo. rewrite Hc in L.
    apply (Z.lt_irrefl (Zpos m)).
    eapply Z.lt_le_trans; [exact L|exact Lo].
Qed.

(** ** Rounding integers and bounded coordinates *)

Lemma integer_valued_Int (q : float) (a : Z) : integer_valued q a -> Int q a.
Proof.
  intros [Hv [Hi Ha]]. apply int_value_Int; try assumption.
  rewrite pow52_53. lia.
Qed.

Lemma round_hex_points_Int (qs rs : list float) (ia ib : list Z) :
  Forall2 integer_valued qs ia -> Forall2 integer_valued rs ib ->
  List.length qs = List.length rs ->
  Np.zip_with round_hex_point qs rs = combine ia ib.
Proof.
  intros Hq. revert rs ib.
  induction Hq as [|q a qs ia Hqa Hq IH]; intros rs ib Hr E.
  - destruct rs; [|discriminate E]. reflexivity.
  - destruct Hr as [|r b rs ib Hrb Hr]; [discriminate E|].
    cbn [Np.zip_with combine]. f_equal.
    + apply round_hex_point_Int.
      * now apply integer_valued_Int.
      * now apply integer_valued_Int.
      * apply Hqa.
      * apply Hrb.
    + apply IH; [assumption|]. simpl in E. congruence.
Qed.

(** C3 fails as stated: above [2^53] the cube coordinate [y = -x-z] is
    rounded by the subtraction itself, and the integer pair [(2^53, 1)] comes
    back as [(2^53, 0)]. *)
Lemma large_integers_are_moved :
  valid (of_Z (2 ^ 53)) = true /\ int_value (of_Z (2 ^ 53)) = Some (2 ^ 53)
  /\ valid (of_Z 1) = true /\ int_value (of_Z 1) = Some 1
  /\ _round_hex [of_Z (2 ^ 53)] [of_Z 1] = Ok ([2 ^ 53], [0])
  /\ _round_hex [of_Z (2 ^ 53)] [of_Z 1] <> Ok ([2 ^ 53], [1]).
Proof.
  repeat split; try (vm_compute; reflexivity).
  intros H. vm_compute in H. discriminate H.
Qed.

(** C3, amended: [_round_hex] is the identity on integer-valued floats below
    [2^52] in magnitude: for arrays of one shape whose elements are such
    floats it returns the integers they stand for. *)
Theorem round_hex_idempotent (qs rs : list float) (ia ib : list Z) :
  Forall2 integer_valued qs ia -> Forall2 integer_valued rs ib ->
  List.length qs = List.length rs ->
  _round_hex qs rs = Ok (ia, ib).
Proof.
  intros Hq Hr E.
  rewrite _round_hex_pointwise, broadcast2_same by assumption. cbn [bind].
  rewrite (round_hex_points_Int qs rs ia ib Hq Hr E).
  assert (Ea : List.length ia = List.length ib).
  { rewrite <- (Forall2_length Hq), <- (Forall2_length Hr). exact E. }
  now rewrite combine_map_fst, combine_map_snd.
Qed.

Lemma round_hex_idempotent_witness :
  _round_hex [of_Z 5; S754_zero true; of_Z (- 7)] [of_Z (- 2); of_Z 4; of_Z (2 ^ 51)]
    = Ok ([5; 0; - 7], [- 2; 4; 2 ^ 51]).
Proof.
  apply round_hex_idempotent; [| |reflexivity];
    repeat constructor; try (vm_compute; reflexivity); vm_compute; reflexivity.
Defined.

Lemma round_hex_point_small (q r : float) :
  small (-3) q -> small (-3) r ->
  agrees_on_kept_axes q r (fst (round_hex_point q r)) (snd (round_hex_point q r)).
Proof.
  intros Hq Hr.
  destruct (rint_small (-3) q ltac:(lia) Hq) as [ix [Hix Bx]].
  destruct (rint_small (-3) r ltac:(lia) Hr) as [iz [Hiz Bz]].
  destruct (rint_small (-1) (cube_y q r) ltac:(lia) (cube_y_small q r Hq Hr))
    as [iy [Hiy By]].
  change (53 + -3) with 50 in Bx, Bz. change (53 + -1) with 52 in By.
  assert (P50 : 2 ^ 52 = 4 * 2 ^ 50) by reflexivity.
  pose proof pow52_53 as P53.
  fold (rx q) in Hix. fold (rz r) in Hiz. fold (ry q r) in Hiy.
  exists ix, iy, iz.
  split; [now apply Int_int_value|]. split; [now apply Int_int_value|].
  split; [now apply Int_int_value|].
  cbv zeta. split; [lia|].
  unfold round_hex_point. cbn [fst snd].
  destruct (x_is_largest q r); cbn [negb andb].
  - rewrite (astype_int_Int _ _ Hiz).
    rewrite (astype_int_Int (neg (F64.add (ry q r) (rz r))) (- (iy + iz)))
      by (apply Int_neg, Int_add; try assumption; lia).
    lia.
  - destruct (gtb (dy q r) (dz r)); cbn [negb].
    + rewrite (astype_int_Int _ _ Hix), (astype_int_Int _ _ Hiz). lia.
    + rewrite (astype_int_Int _ _ Hix).
      rewrite (astype_int_Int (neg (F64.add (rx q) (ry q r))) (- (ix + iy)))
        by (apply Int_neg, Int_add; try assumption; lia).
      lia.
Qed.

Lemma Forall2_map_r {A B : Type} (R : A -> B -> Prop) (h : A -> B) (l : list A) :
  Forall (fun a => R a (h a)) l -> Forall2 R l (map h l).
Proof. induction 1; simpl; constructor; assumption. Qed.

(** C2 fails as stated: for large finite inputs the subtraction [-x-z]
    rounds.  At [(3, 2^54)] the three errors are zero and [z] is recomputed;
    the kept [y] was rounded to [-(2^54+4)], which is not [-q-r]. *)
Lemma large_coordinates_disagree :
  let q := of_Z 3 in
  let r := of_Z (2 ^ 54) in
  valid q = true /\ valid r = true
  /\ x_is_largest q r = false /\ gtb (dy q r) (dz r) = false
  /\ _round_hex [q] [r] = Ok ([3], [2 ^ 54])
  /\ int_value (ry q r) = Some (- (2 ^ 54 + 4))
  /\ ~ agrees_on_kept_axes q r 3 (2 ^ 54).
Proof.
  cbv zeta. repeat split; try (vm_compute; reflexivity).
  intros [ix [iy [iz [_ [Hy [_ [_ H]]]]]]].
  assert (Ey : int_value (ry (of_Z 3) (of_Z (2 ^ 54))) = Some (- (2 ^ 54 + 4)))
    by (vm_compute; reflexivity).
  rewrite Ey in Hy. injection Hy as <-.
  replace (x_is_largest (of_Z 3) (of_Z (2 ^ 54))) with false in H
    by (vm_compute; reflexivity).
  replace (gtb (dy (of_Z 3) (of_Z (2 ^ 54))) (dz (of_Z (2 ^ 54)))) with false in H
    by (vm_compute; reflexivity).
  destruct H as [_ H]. vm_compute in H. discriminate H.
Qed.

(** C2, amended: for arrays of one shape whose coordinates are finite and
    below [2^50] in magnitude, [_round_hex] returns integer arrays of that
    shape; at every index the rounded cube coordinates are integers and the
    outputs [(q, r)], with [s = -q-r], agree with them on the two axes that
    were kept, so that [q + r + s = 0] holds of the corrected triple. *)
Theorem round_hex_sum_zero (qs rs : list float) :
  List.length qs = List.length rs ->
  Forall bounded_coordinate qs -> Forall bounded_coordinate rs ->
  exists Qs Rs : list Z,
    _round_hex qs rs = Ok (Qs, Rs)
    /\ List.length Qs = List.length qs /\ List.length Rs = List.length qs
    /\ Forall2 (fun p P => agrees_on_kept_axes (fst p) (snd p) (fst P) (snd P))
         (combine qs rs) (combine Qs Rs).
Proof.
  intros E Hq Hr.
  pose proof (_round_hex_map fst snd (combine qs rs)) as H.
  rewrite combine_map_fst, combine_map_snd in H by assumption.
  eexists _, _. split; [exact H|].
  rewrite !length_map, length_combine, <- E, Nat.min_id.
  split; [reflexivity|]. split; [reflexivity|].
  set (h := fun p : float * float => round_hex_point (fst p) (snd p)).
  replace (combine (map (fun p => fst (round_hex_point (fst p) (snd p))) (combine qs rs))
                   (map (fun p => snd (round_hex_point (fst p) (snd p))) (combine qs rs)))
    with (map h (combine qs rs)).
  2:{ rewrite <- (combine_fst_snd (map h (combine qs rs))) at 1.
      now rewrite !map_map. }
  apply Forall2_map_r. apply Forall_forall. intros [q r] Hin. cbn [fst snd]. unfold h.
  rewrite Forall_forall in Hq, Hr.
  destruct (Hq q (in_combine_l _ _ _ _ Hin)) as [Vq Bq].
  destruct (Hr r (in_combine_r _ _ _ _ Hin)) as [Vr Br].
  apply round_hex_point_small; now apply below_small.
Qed.

Lemma round_hex_sum_zero_witness :
  exists Qs Rs : list Z,
    _round_hex [div (of_Z 5) (of_Z 3); of_Z 7] [div (of_Z 1) (of_Z 3); F64.neg (div (of_Z 7) (of_Z 2))]
      = Ok (Qs, Rs)
    /\ List.length Qs = 2%nat /\ List.length Rs = 2%nat.
Proof.
  destruct (round_hex_sum_zero
              [div (of_Z 5) (of_Z 3); of_Z 7]
              [div (of_Z 1) (of_Z 3); F64.neg (div (of_Z 7) (of_Z 2))] eq_refl)
    as [Qs [Rs [H [L1 [L2 _]]]]].
  - repeat constructor; vm_compute; reflexivity.
  - repeat constructor; vm_compute; reflexivity.
  - exists Qs, Rs. repeat split; assumption.
Defined.

(** ** The mapping *)

(** C6: for every point the mapping divides [x] and [-y] by [size]; with
    ["pointytop"] it multiplies the normalized [x] by [aspect_scale] (and
    divides the normalized [y] by one), with ["flattop"] it divides the
    normalized, sign-inverted [y] by [aspect_scale] (and multiplies the
    normalized [x] by one); it then rounds [q = a x' + b y'] and
    [r = c x' + d y'] with [a, b, c, d] the coefficients
    [sqrt(3)/3, -1/3, 0, 2/3] for pointy-top and [2/3, 0, -1/3, sqrt(3)/3]
    for flat-top. *)
Theorem mapper_formula
    (x y : list float) (size : float) (aspect_scale : float) :
  cartesian_to_axial x y size "pointytop" aspect_scale =
    (let x' := map (fun v => F64.mul (F64.div v size) aspect_scale) x in
     let y' := map (fun v => F64.div (F64.div (F64.neg v) size) one) y in
     q <- Np.add (map (F64.mul (div (sqrt (of_Z 3)) (of_Z 3))) x')
                 (map (F64.mul (div (neg (of_Z 1)) (of_Z 3))) y') ;;
     r <- Np.add (map (F64.mul zero) x')
                 (map (F64.mul (div (of_Z 2) (of_Z 3))) y') ;;
     _round_hex q r)
  /\ cartesian_to_axial x y size "flattop" aspect_scale =
    (let x' := map (fun v => F64.mul (F64.div v size) one) x in
     let y' := map (fun v => F64.div (F64.div (F64.neg v) size) aspect_scale) y in
     q <- Np.add (map (F64.mul (div (of_Z 2) (of_Z 3))) x')
                 (map (F64.mul zero) y') ;;
     r <- Np.add (map (F64.mul (div (neg (of_Z 1)) (of_Z 3))) x')
                 (map (F64.mul (div (sqrt (of_Z 3)) (of_Z 3))) y') ;;
     _round_hex q r)
  /\ (List.length x = List.length y ->
      forall orientation,
      cartesian_to_axial x y size orientation aspect_scale =
        _round_hex (Np.zip_with (axial_q size orientation aspect_scale) x y)
                   (Np.zip_with (axial_r size orientation aspect_scale) x y)).
Proof.
  split; [|split].
  - unfold cartesian_to_axial, Np.scalar_mul, Np.mul_scalar, Np.div_scalar, Np.negative.
    cbn [String.eqb Ascii.eqb Bool.eqb]. cbv zeta. rewrite !map_map. reflexivity.
  - unfold cartesian_to_axial, Np.scalar_mul, Np.mul_scalar, Np.div_scalar, Np.negative.
    cbn [String.eqb Ascii.eqb Bool.eqb]. cbv zeta. rewrite !map_map. reflexivity.
  - intros E orientation.
    rewrite <- (combine_map_fst x y E) at 1 2 3.
    rewrite <- (combine_map_snd x y E) at 2 4 6.
    rewrite cartesian_to_axial_map, !zip_with_map, _round_hex_map.
    reflexivity.
Qed.

Lemma mapper_formula_witness :
  cartesian_to_axial [of_Z 3; of_Z 0] [of_Z 0; of_Z 5] (of_Z 2) "flattop" (of_Z 2)
    = Ok ([1; 0], [- 1; - 1]).
Proof.
  etransitivity.
  - exact (proj2 (proj2 (mapper_formula [of_Z 3; of_Z 0] [of_Z 0; of_Z 5]
                            (of_Z 2) (of_Z 2))) eq_refl "flattop"%string).
  - vm_compute. reflexivity.
Defined.
